(** * Giggle2 backend (backend/app.py): gig store, assignments and push fan-out

    A shallow embedding of the FastAPI handlers of [backend/app.py] and the
    properties of its gig store, assignment relation and connection
    registry.  The three module-level dictionaries of the program
    ([gigs], [gig_assignments], [connections]) form the state threaded
    through every handler; a raised [HTTPException] leaves the mutations
    made before the [raise] in place, exactly as in Python. *)

From Stdlib Require Import ZArith Ascii String List.
From stdpp Require Import gmap strings list sorting.

#[local] Set Warnings "-clear-no-such-hyp".

(** * The program *)

(** ** Regular expressions, as far as [_email_rx] needs them *)

Module Regex.

(** The pattern language: literals, negated one-character classes
    [[^c]], concatenation, [+] and the constructors that derivatives
    introduce. *)
Inductive regex : Type :=
| Void
| Eps
| Chr (c : ascii)
| NotChr (c : ascii)
| Seq (r1 r2 : regex)
| Alt (r1 r2 : regex)
| Star (r : regex)
| Plus (r : regex).

(** Words of the language of a pattern. *)
Inductive matches : regex → list ascii → Prop :=
| m_eps : matches Eps []
| m_chr c : matches (Chr c) [c]
| m_notchr c a : a ≠ c → matches (NotChr c) [a]
| m_seq r1 r2 s1 s2 :
    matches r1 s1 → matches r2 s2 → matches (Seq r1 r2) (s1 ++ s2)
| m_alt_l r1 r2 s : matches r1 s → matches (Alt r1 r2) s
| m_alt_r r1 r2 s : matches r2 s → matches (Alt r1 r2) s
| m_star_nil r : matches (Star r) []
| m_star_cons r s1 s2 :
    matches r s1 → matches (Star r) s2 → matches (Star r) (s1 ++ s2)
| m_plus r s1 s2 :
    matches r s1 → matches (Star r) s2 → matches (Plus r) (s1 ++ s2).

Fixpoint nullable (r : regex) : bool :=
  match r with
  | Void => false
  | Eps => true
  | Chr _ => false
  | NotChr _ => false
  | Seq r1 r2 => nullable r1 && nullable r2
  | Alt r1 r2 => nullable r1 || nullable r2
  | Star _ => true
  | Plus r => nullable r
  end.

(** Brzozowski derivative of a pattern by one character. *)
Fixpoint deriv (a : ascii) (r : regex) : regex :=
  match r with
  | Void => Void
  | Eps => Void
  | Chr c => if Ascii.eqb a c then Eps else Void
  | NotChr c => if Ascii.eqb a c then Void else Eps
  | Seq r1 r2 =>
      if nullable r1
      then Alt (Seq (deriv a r1) r2) (deriv a r2)
      else Seq (deriv a r1) r2
  | Alt r1 r2 => Alt (deriv a r1) (deriv a r2)
  | Star r => Seq (deriv a r) (Star r)
  | Plus r => Seq (deriv a r) (Star r)
  end.

(** Whole-word matching: the executable matcher. *)
Fixpoint rx_match (r : regex) (s : list ascii) : bool :=
  match s with
  | [] => nullable r
  | a :: s' => rx_match (deriv a r) s'
  end.

End Regex.

(** ** The e-mail pattern *)

Module Email.
Import Regex.

Definition at_sign : ascii := "@"%char.
Definition full_stop : ascii := "."%char.
Definition newline : ascii := "010"%char.

(** The pattern between the anchors of
    [_email_rx = re.compile(r"^[^@]+@[^@]+\.[^@]+$")]. *)
Definition email_body : regex :=
  Seq (Plus (NotChr at_sign))
    (Seq (Chr at_sign)
       (Seq (Plus (NotChr at_sign))
          (Seq (Chr full_stop) (Plus (NotChr at_sign))))).

(** [pattern.match(s)] for a pattern of the shape [^body$]: Python's [$]
    (without [re.MULTILINE]) matches at the end of the string and also
    just before a newline that ends the string. *)
Definition match_anchored (body : regex) (s : list ascii) : bool :=
  rx_match body s
  || match last s with
     | Some c => Ascii.eqb c newline && rx_match body (removelast s)
     | None => false
     end.

(** [_email_rx.match(client_email)] as a truth value. *)
Definition _email_rx (client_email : string) : bool :=
  match_anchored email_body (list_ascii_of_string client_email).

(** The strings the pattern accepts, written out: exactly one ["@"], at
    least one character before it, and after it a ["."] that has at
    least one character on either side. *)
Definition no_at (s : string) : Prop :=
  Forall (λ a, a ≠ at_sign) (list_ascii_of_string s).

Definition email_shape (s : string) : Prop :=
  ∃ l d r : string,
    s = l +:+ "@" +:+ d +:+ "." +:+ r
    ∧ l ≠ "" ∧ d ≠ "" ∧ r ≠ "" ∧ no_at l ∧ no_at d ∧ no_at r.

(** The shape as the data model words it: a non-empty local part, ["@"],
    a non-empty domain that contains a ["."], with a non-empty remainder
    after that ["."]. *)
Definition email_shape_spec (s : string) : Prop :=
  ∃ local domain : string,
    s = local +:+ "@" +:+ domain
    ∧ local ≠ "" ∧ domain ≠ ""
    ∧ ∃ pre rem : string, domain = pre +:+ "." +:+ rem ∧ rem ≠ "".

End Email.

Import Email.

(** ** Values and process state *)

(** A websocket object, identified by its address. *)
Abbreviation WebSocket := nat (only parsing).

(** The one payload the program sends, [{"type": "gigs_changed"}]. *)
Inductive Payload : Type := gigs_changed.

(** A gig dictionary [{"id", "date", "client_email", "fee"}]. *)
Record Gig : Type := mkGig {
  g_id : string;
  g_date : string;
  g_client_email : string;
  g_fee : Z
}.

Global Instance Gig_eq_dec : EqDecision Gig.
Proof. solve_decision. Defined.

(** Exceptions (all subclasses of Python's [Exception]). *)
Inductive Exn : Type :=
| HTTPException (status_code : nat) (detail : string)
| KeyError (key : string)
| SendError (ws : WebSocket)
| RuntimeError (msg : string).

(** The three request-level error kinds, as the program raises them. *)
Definition NotFoundError : Exn := HTTPException 404 "gig not found".
Definition UnknownWorkerError : Exn := HTTPException 404 "unknown gent id".
Definition ValidationError : Exn := HTTPException 400 "invalid email".

(** What [asyncio.create_task] raises in a thread without a running event
    loop. *)
Definition NoRunningLoop : Exn := RuntimeError "no running event loop".

(** What the program does to the outside: tasks handed to an event loop
    by [asyncio.create_task], calls of [send_to_user] that ran, and frames
    that [ws.send_json] delivered. *)
Inductive Event : Type :=
| TaskCreated (user_id : string) (payload : Payload)
| PushCalled (user_id : string) (payload : Payload)
| FrameSent (ws : WebSocket) (payload : Payload).

Global Instance Payload_eq_dec : EqDecision Payload.
Proof. solve_decision. Defined.
Global Instance Event_eq_dec : EqDecision Event.
Proof. solve_decision. Defined.

(** The module-level state.  [gigs] is a Python [dict], which keeps its
    keys in insertion order, so it is an association list; the two other
    dictionaries are only ever looked up by key.  [broken] is the set of
    websockets on which sending raises; [trace] records the events. *)
Record World : Type := mkWorld {
  gigs : list (string * Gig);
  gig_assignments : gmap string (gset string);
  connections : gmap string (gset nat);
  broken : gset nat;
  trace : list Event
}.

Definition set_gigs (f : list (string * Gig) → list (string * Gig))
    (w : World) : World :=
  mkWorld (f (gigs w)) (gig_assignments w) (connections w) (broken w) (trace w).

Definition set_gig_assignments
    (f : gmap string (gset string) → gmap string (gset string))
    (w : World) : World :=
  mkWorld (gigs w) (f (gig_assignments w)) (connections w) (broken w) (trace w).

Definition set_connections
    (f : gmap string (gset nat) → gmap string (gset nat)) (w : World) : World :=
  mkWorld (gigs w) (gig_assignments w) (f (connections w)) (broken w) (trace w).

Definition add_event (e : Event) (w : World) : World :=
  mkWorld (gigs w) (gig_assignments w) (connections w) (broken w)
    (trace w ++ [e]).

(** The state of a freshly started process. *)
Definition initial (brk : gset nat) : World := mkWorld [] ∅ ∅ brk [].

(** ** Insertion-ordered dictionaries *)

Section Dict.
Context {V : Type}.

(** [d.get(k)] *)
Fixpoint dict_get (d : list (string * V)) (k : string) : option V :=
  match d with
  | [] => None
  | (k', v) :: d' => if decide (k = k') then Some v else dict_get d' k
  end.

(** [d[k] = v]: an existing key keeps its position, a new one goes last. *)
Fixpoint dict_set (d : list (string * V)) (k : string) (v : V)
    : list (string * V) :=
  match d with
  | [] => [(k, v)]
  | (k', v') :: d' =>
      if decide (k = k') then (k, v) :: d' else (k', v') :: dict_set d' k v
  end.

(** In-place mutation of the object stored under [k]. *)
Fixpoint dict_mutate (d : list (string * V)) (k : string) (f : V → V)
    : list (string * V) :=
  match d with
  | [] => []
  | (k', v) :: d' =>
      if decide (k = k') then (k', f v) :: d' else (k', v) :: dict_mutate d' k f
  end.

End Dict.

(** ** Handlers: state and exceptions *)

Inductive Outcome (A : Type) : Type :=
| Return (a : A)
| Raise (e : Exn).
Arguments Return {A} a.
Arguments Raise {A} e.

(** A computation runs on the process state and either returns or raises;
    the state it leaves behind is kept in both cases. *)
Definition M (A : Type) : Type := World → World * Outcome A.

Definition ret {A} (a : A) : M A := λ w, (w, Return a).
Definition raise {A} (e : Exn) : M A := λ w, (w, Raise e).
Definition bind {A B} (m : M A) (k : A → M B) : M B :=
  λ w, match m w with
       | (w', Return a) => k a w'
       | (w', Raise e) => (w', Raise e)
       end.
Definition get_world : M World := λ w, (w, Return w).
Definition modify (f : World → World) : M unit := λ w, (f w, Return tt).

Notation "'let*' x ':=' m 'in' k" := (bind m (λ x, k))
  (at level 10, x pattern, m at level 100, k at level 200, only parsing).
Notation "m ';;' k" := (bind m (λ _, k))
  (at level 100, k at level 200, right associativity, only parsing).

(** [try: m  except Exception: pass] *)
Definition try_pass (m : M unit) : M unit :=
  λ w, (fst (m w), Return tt).

(** [for x in l: body(x)] *)
Fixpoint for_each {A} (l : list A) (body : A → M unit) : M unit :=
  match l with
  | [] => ret tt
  | x :: l' => body x ;; for_each l' body
  end.

(** ** Sorting *)

(** A stable insertion sort: what [sorted] and [list.sort] compute. *)
Fixpoint insert_by {A} (le : A → A → bool) (x : A) (l : list A) : list A :=
  match l with
  | [] => [x]
  | y :: l' => if le x y then x :: y :: l' else y :: insert_by le x l'
  end.

Definition sort_by {A} (le : A → A → bool) (l : list A) : list A :=
  foldr (insert_by le) [] l.

(** [sorted(list(s))] for a set of strings. *)
Definition sorted (s : gset string) : list string :=
  sort_by String.leb (elements s).

(** Python's order on the tuples [(date, id)]: the first components that
    differ decide. *)
Definition tuple_leb (k1 k2 : string * string) : bool :=
  if decide (k1.1 = k2.1) then String.leb k1.2 k2.2 else String.leb k1.1 k2.1.

(** [lambda x: (x.get("date", ""), x["id"])] *)
Definition sort_key (x : Gig) : string * string := (g_date x, g_id x).

Definition gig_leb (x y : Gig) : bool := tuple_leb (sort_key x) (sort_key y).

(** ** Realtime: the connection registry *)

(** [connections.get(user_id, [])] as a set. *)
Definition channels (w : World) (user_id : string) : gset nat :=
  default ∅ (connections w !! user_id).

(** [connections.setdefault(user_id, set()).add(ws)] *)
Definition add_conn (user_id : string) (ws : WebSocket) : M unit :=
  modify (set_connections (λ c, <[user_id := {[ws]} ∪ default ∅ (c !! user_id)]> c)).

Definition remove_conn (user_id : string) (ws : WebSocket) : M unit :=
  let* w := get_world in
  match connections w !! user_id with
  | Some s =>
      let s' := s ∖ {[ws]} in
      if decide (s' = ∅)
      then modify (set_connections (delete user_id))
      else modify (set_connections <[user_id := s']>)
  | None => ret tt
  end.

(** [await ws.send_json(payload)]: raises on a broken websocket. *)
Definition send_json (ws : WebSocket) (payload : Payload) : M unit :=
  let* w := get_world in
  if decide (ws ∈ broken w) then raise (SendError ws)
  else modify (add_event (FrameSent ws payload)).

(** [send_to_user]: the loop runs over a copy of the user's channel set,
    in the order [elements] lists it. *)
Definition send_to_user (user_id : string) (payload : Payload) : M unit :=
  modify (add_event (PushCalled user_id payload)) ;;
  let* w := get_world in
  for_each (elements (channels w user_id))
    (λ ws, try_pass (send_json ws payload)).

(** [asyncio.create_task(send_to_user(user_id, payload))] as [update_gig]
    calls it.  [update_gig] is a plain [def], which FastAPI runs in a worker
    thread; no event loop runs there, so [create_task] raises.  The
    coroutine object made for its argument has not started and never
    does: nothing is scheduled and nothing is sent. *)
Definition create_task_send_to_user (user_id : string) (payload : Payload)
    : M unit :=
  raise NoRunningLoop.

(** ** Gigs *)

Definition GENTS : list string :=
  ["gent-1"; "gent-2"; "gent-3"; "gent-4"; "gent-5"].

(** [gig_assignments.get(gig_id, set())] *)
Definition assigned_to (w : World) (gig_id : string) : gset string :=
  default ∅ (gig_assignments w !! gig_id).

(** [ensure_gig]: every stored dictionary has four keys, so [not g] holds
    only for [None]. *)
Definition ensure_gig (gig_id : string) : M Gig :=
  let* w := get_world in
  match dict_get (gigs w) gig_id with
  | Some g => ret g
  | None => raise NotFoundError
  end.

(** [gigs[gid]] *)
Definition getitem (gid : string) : M Gig :=
  let* w := get_world in
  match dict_get (gigs w) gid with
  | Some g => ret g
  | None => raise (KeyError gid)
  end.

(** [create_gig]; [gid] is the value of [str(uuid4())]. *)
Definition create_gig (gid : string) (date client_email : string) (fee : Z)
    : M Gig :=
  if negb (_email_rx client_email) then raise ValidationError
  else
    modify (set_gigs (λ d, dict_set d gid (mkGig gid date client_email fee))) ;;
    modify (set_gig_assignments <[gid := ∅]>) ;;
    getitem gid.

(** [list_gigs]: every gig with its sorted assignees, in dictionary order. *)
Definition list_gigs : M (list (Gig * list string)) :=
  let* w := get_world in
  ret (map (λ '(gid, g), (g, sorted (assigned_to w gid))) (gigs w)).

Definition set_date (date : string) (g : Gig) : Gig :=
  mkGig (g_id g) date (g_client_email g) (g_fee g).
Definition set_client_email (client_email : string) (g : Gig) : Gig :=
  mkGig (g_id g) (g_date g) client_email (g_fee g).
Definition set_fee (fee : Z) (g : Gig) : Gig :=
  mkGig (g_id g) (g_date g) (g_client_email g) fee.

(** [g[field] = value], where [g] is the dictionary object stored under
    [gig_id]: the assignment changes the store itself. *)
Definition setitem (gig_id : string) (f : Gig → Gig) : M unit :=
  modify (set_gigs (λ d, dict_mutate d gig_id f)).

(** [update_gig].  [g] is the object [ensure_gig] returned, which is the
    one stored under [gig_id]; the value returned at the end is that
    object as it is then. *)
Definition update_gig (gig_id : string)
    (date client_email : option string) (fee : option Z) : M Gig :=
  let* _ := ensure_gig gig_id in
  (match date with
   | Some d => setitem gig_id (set_date d)
   | None => ret tt
   end) ;;
  (match client_email with
   | Some e =>
       if negb (_email_rx e) then raise ValidationError
       else setitem gig_id (set_client_email e)
   | None => ret tt
   end) ;;
  (match fee with
   | Some f => setitem gig_id (set_fee f)
   | None => ret tt
   end) ;;
  (let* w := get_world in
   for_each (elements (assigned_to w gig_id))
     (λ gent, create_task_send_to_user gent gigs_changed)) ;;
  getitem gig_id.

(** [assign_gent].  [s] is the set object stored under [gig_id] (created
    by [setdefault] when missing); [add] and [discard] change it in place. *)
Definition assign_gent (gig_id gent_id : string) (assigned : bool)
    : M (string * list string) :=
  if negb (bool_decide (gent_id ∈ GENTS)) then raise UnknownWorkerError
  else
    let* _ := ensure_gig gig_id in
    modify (set_gig_assignments (λ a, <[gig_id := default ∅ (a !! gig_id)]> a)) ;;
    let* w := get_world in
    let before := bool_decide (gent_id ∈ assigned_to w gig_id) in
    (if assigned
     then modify (set_gig_assignments
                    (λ a, <[gig_id := default ∅ (a !! gig_id) ∪ {[gent_id]}]> a))
     else modify (set_gig_assignments
                    (λ a, <[gig_id := default ∅ (a !! gig_id) ∖ {[gent_id]}]> a))) ;;
    let changed := negb (Bool.eqb before assigned) in
    (if changed then send_to_user gent_id gigs_changed else ret tt) ;;
    let* w' := get_world in
    ret (gig_id, sorted (assigned_to w' gig_id)).

Definition manager_gigs : M (list (Gig * list string)) := list_gigs.

(** [gigs_for_gent] *)
Definition gigs_for_gent (gent_id : string) : M (list Gig) :=
  if negb (bool_decide (gent_id ∈ GENTS)) then raise UnknownWorkerError
  else
    let* w := get_world in
    let result :=
      omap (λ '(gid, g),
              if bool_decide (gent_id ∈ assigned_to w gid) then Some g else None)
        (gigs w) in
    ret (sort_by gig_leb result).

(** ** Requests *)

Inductive Request : Type :=
| CreateGig (gid date client_email : string) (fee : Z)
| ListGigs
| GetGig (gig_id : string)
| UpdateGig (gig_id : string) (date client_email : option string)
    (fee : option Z)
| SetAssignment (gig_id gent_id : string) (assigned : bool)
| ManagerGigs
| ListGigsForWorker (gent_id : string)
| Register (user_id : string) (ws : WebSocket)
| Unregister (user_id : string) (ws : WebSocket)
| Push (user_id : string) (payload : Payload).

(** The state a request leaves behind, whether it returned or raised. *)
Definition exec (req : Request) (w : World) : World :=
  match req with
  | CreateGig gid date client_email fee =>
      fst (create_gig gid date client_email fee w)
  | ListGigs => fst (list_gigs w)
  | GetGig gig_id => fst (ensure_gig gig_id w)
  | UpdateGig gig_id date client_email fee =>
      fst (update_gig gig_id date client_email fee w)
  | SetAssignment gig_id gent_id assigned =>
      fst (assign_gent gig_id gent_id assigned w)
  | ManagerGigs => fst (manager_gigs w)
  | ListGigsForWorker gent_id => fst (gigs_for_gent gent_id w)
  | Register user_id ws => fst (add_conn user_id ws w)
  | Unregister user_id ws => fst (remove_conn user_id ws w)
  | Push user_id payload => fst (send_to_user user_id payload w)
  end.

(** The states the process can be in. *)
Inductive reachable (brk : gset nat) : World → Prop :=
| reach_init : reachable brk (initial brk)
| reach_step w req : reachable brk w → reachable brk (exec req w).

(** ** Vocabulary of the statements, and example states *)

(** The state with the events [l] appended to its trace. *)
Definition add_events (l : list Event) (w : World) : World :=
  mkWorld (gigs w) (gig_assignments w) (connections w) (broken w)
    (trace w ++ l).

(** Frames that reach the client: those on channels that are not broken. *)
Definition frames (w : World) (payload : Payload) (l : list nat) : list Event :=
  map (λ ws, FrameSent ws payload) (filter (λ ws, ws ∉ broken w) l).

(** The assignment set of [gig_id] after [assign_gent]. *)
Definition toggled (s : gset string) (gent_id : string) (assigned : bool)
    : gset string :=
  if assigned then s ∪ {[gent_id]} else s ∖ {[gent_id]}.

(** The events of one awaited [send_to_user]. *)
Definition push_events (w : World) (user_id : string) : list Event :=
  PushCalled user_id gigs_changed
    :: frames w gigs_changed (elements (channels w user_id)).

(** The patch of the fields that are present. *)
Definition patch (date client_email : option string) (fee : option Z)
    (g : Gig) : Gig :=
  let g1 := match date with Some d => set_date d g | None => g end in
  let g2 := match client_email with
            | Some e => set_client_email e g1
            | None => g1
            end in
  match fee with Some f => set_fee f g2 | None => g2 end.

(** The gig of the scenario. *)
Definition gig1 : Gig := mkGig "g1" "2025-03-01" "client@example.com" 5000.

(** One stored gig without assignees. *)
Definition w_one : World :=
  exec (CreateGig "g1" "2025-03-01" "client@example.com" 5000) (initial ∅).

(** The same gig with ["gent-1"] assigned. *)
Definition w_assigned : World := exec (SetAssignment "g1" "gent-1" true) w_one.

(** The calls of [send_to_user] recorded in a trace. *)
Definition pushes (l : list Event) : list (string * Payload) :=
  omap (λ ev, match ev with
              | PushCalled u p => Some (u, p)
              | _ => None
              end) l.

(** The gigs [gigs_for_gent] collects before sorting. *)
Definition gigs_of (w : World) (gent_id : string) : list Gig :=
  omap (λ '(gid, g),
          if bool_decide (gent_id ∈ assigned_to w gid) then Some g else None)
    (gigs w).

(** Ascending by [(date, id)]: a strictly smaller date, or the same date and
    an identifier that is not larger; strings are compared character by
    character. *)
Definition date_id_le (x y : Gig) : Prop :=
  String.ltb (g_date x) (g_date y) = true
  ∨ (g_date x = g_date y ∧ String.leb (g_id x) (g_id y) = true).

(** Two assigned gigs stored out of date order, one unassigned gig. *)
Definition w_two : World :=
  exec (SetAssignment "g1" "gent-1" true)
    (exec (SetAssignment "g0" "gent-1" true)
       (exec (CreateGig "g9" "2025-01-01" "c@example.com" 3)
          (exec (CreateGig "g0" "2025-02-01" "b@example.com" 2)
             (exec (CreateGig "g1" "2025-03-01" "a@example.com" 1)
                (initial ∅))))).

(** Three channels for one user, the second of them broken. *)
Definition w_channels : World :=
  mkWorld [] ∅ {["gent-1" := {[1; 2; 3]}]} {[2]} [].

(** Every assignee is on the roster, and every stored gig has an assignment
    set. *)
Definition store_inv (w : World) : Prop :=
  (∀ gid s u, gig_assignments w !! gid = Some s → u ∈ s → u ∈ GENTS)
  ∧ (∀ gid, gid ∈ (gigs w).*1 → is_Some (gig_assignments w !! gid)).

(** ** The websocket endpoint *)

(** What [await ws.receive_text()] gives the keepalive loop: a text frame,
    the [WebSocketDisconnect] exception, or another exception. *)
Inductive Incoming : Type :=
| TextFrame (text : string)
| Disconnected
| ReceiveError (e : Exn).

(** Where [ws_endpoint] stands: closed by the server with a code before
    being accepted, accepted and waiting in the loop, or returned after the
    disconnect. *)
Inductive Channel : Type :=
| Rejected (code : nat)
| Open
| Closed.

(** [await ws.close(code=code)] and [await ws.accept()]: each sends one
    message on the transport, which raises on a broken websocket. *)
Definition ws_close (ws : WebSocket) (code : nat) : M unit :=
  let* w := get_world in
  if decide (ws ∈ broken w) then raise (SendError ws) else ret tt.

Definition ws_accept (ws : WebSocket) : M unit :=
  let* w := get_world in
  if decide (ws ∈ broken w) then raise (SendError ws) else ret tt.

(** [ws_endpoint] up to its first [receive_text].  [user_id] is
    [ws.query_params.get("user_id")]; [not user_id] holds for [None] and
    for the empty string.  (The [print] calls are left out.) *)
Definition ws_endpoint_connect (user_id : option string) (ws : WebSocket)
    : M Channel :=
  match user_id with
  | None => ws_close ws 4000 ;; ret (Rejected 4000)
  | Some u =>
      if decide (u = "") then ws_close ws 4000 ;; ret (Rejected 4000)
      else ws_accept ws ;; add_conn u ws ;; ret Open
  end.

(** The loop [while True: await ws.receive_text()] of an accepted channel,
    run on the frames that arrive: text is ignored, the disconnect runs
    [remove_conn] and ends the handler, any other exception leaves the
    handler as it is, past the [except WebSocketDisconnect]; with no more
    input the handler stays suspended in the loop. *)
Fixpoint ws_endpoint_loop (user_id : string) (ws : WebSocket)
    (inbox : list Incoming) : M Channel :=
  match inbox with
  | [] => ret Open
  | TextFrame _ :: inbox' => ws_endpoint_loop user_id ws inbox'
  | Disconnected :: _ => remove_conn user_id ws ;; ret Closed
  | ReceiveError e :: _ => raise e
  end.

(** [ws_endpoint] as a whole, on the frames that arrive after the
    connection. *)
Definition ws_endpoint (user_id : option string) (ws : WebSocket)
    (inbox : list Incoming) : M Channel :=
  let* st := ws_endpoint_connect user_id ws in
  match st, user_id with
  | Open, Some u => ws_endpoint_loop u ws inbox
  | _, _ => ret st
  end.

(** [health] *)
Definition health : M bool := ret true.

(** ** Further invariants *)

(** The keys of [gigs] are distinct and every record carries its key as
    its ["id"]. *)
Definition gigs_wf (w : World) : Prop :=
  NoDup (gigs w).*1 ∧ ∀ gid g, (gid, g) ∈ gigs w → g_id g = gid.

(** No user is registered with an empty set of channels. *)
Definition conn_inv (w : World) : Prop :=
  ∀ u s, connections w !! u = Some s → s ≠ ∅.

(** Strictly ascending strings. *)
Definition str_lt (a b : string) : Prop := String.ltb a b = true.

(** The events a handler added to the trace. *)
Definition added (w w' : World) (l : list Event) : Prop :=
  trace w' = trace w ++ l.

(** * Properties *)

(** ** The pattern matcher *)

Module RegexFacts.
Import Regex.

(** Inversion principles, one per constructor with a split word. *)
Lemma seq_inv r1 r2 s :
  matches (Seq r1 r2) s →
  ∃ s1 s2, s = s1 ++ s2 ∧ matches r1 s1 ∧ matches r2 s2.
Proof. inversion 1; subst; eauto. Qed.

Lemma alt_inv r1 r2 s : matches (Alt r1 r2) s → matches r1 s ∨ matches r2 s.
Proof. inversion 1; subst; eauto. Qed.

Lemma plus_inv r s :
  matches (Plus r) s →
  ∃ s1 s2, s = s1 ++ s2 ∧ matches r s1 ∧ matches (Star r) s2.
Proof. inversion 1; subst; eauto. Qed.

Lemma m_seq_cons r1 r2 a s1 s2 :
  matches r1 (a :: s1) → matches r2 s2 → matches (Seq r1 r2) (a :: s1 ++ s2).
Proof. intros. change (a :: s1 ++ s2) with ((a :: s1) ++ s2). by constructor. Qed.

Lemma nullable_spec r : nullable r = true ↔ matches r [].
Proof.
  induction r as [| |c|c|r1 IH1 r2 IH2|r1 IH1 r2 IH2|r IH|r IH];
    simpl; split; intros H;
    try discriminate; try (by constructor); try (by inversion H).
  - apply andb_true_iff in H as [H1 H2].
    change (@nil ascii) with (@nil ascii ++ []). constructor; tauto.
  - apply seq_inv in H as (s1 & s2 & Heq & H1 & H2). symmetry in Heq.
    apply app_eq_nil in Heq as [-> ->]. apply andb_true_iff. tauto.
  - apply orb_true_iff in H as [H|H]; [apply m_alt_l|apply m_alt_r]; tauto.
  - apply orb_true_iff. apply alt_inv in H. tauto.
  - change (@nil ascii) with (@nil ascii ++ []).
    constructor; [tauto|constructor].
  - apply plus_inv in H as (s1 & s2 & Heq & H1 & H2). symmetry in Heq.
    apply app_eq_nil in Heq as [-> ->]. tauto.
Qed.

(** A non-empty word of [r*] starts with a non-empty word of [r]. *)
Lemma star_cons_inv r a s :
  matches (Star r) (a :: s) →
  ∃ s1 s2, s = s1 ++ s2 ∧ matches r (a :: s1) ∧ matches (Star r) s2.
Proof.
  intros H. remember (Star r) as r' eqn:Hr. remember (a :: s) as w eqn:Hw.
  revert s Hw.
  induction H as [| | | | | | |r0 s1 s2 H1 _ H2 IH2|]; intros s' Hw;
    try discriminate.
  injection Hr as ->. destruct s1 as [|b s1]; simpl in Hw.
  - apply IH2; done.
  - injection Hw as -> <-. eauto.
Qed.

Lemma deriv_spec r a s : matches (deriv a r) s ↔ matches r (a :: s).
Proof.
  revert s. induction r as [| |c|c|r1 IH1 r2 IH2|r1 IH1 r2 IH2|r IH|r IH];
    intros s; simpl.
  - split; intros H; inversion H.
  - split; intros H; inversion H.
  - destruct (Ascii.eqb_spec a c) as [->|Hne]; split; intros H;
      inversion H; subst; try constructor; congruence.
  - destruct (Ascii.eqb_spec a c) as [->|Hne]; split; intros H;
      inversion H; subst; try (by constructor); congruence.
  - assert (Hseq : matches (Seq (deriv a r1) r2) s →
                   matches (Seq r1 r2) (a :: s)).
    { intros H. apply seq_inv in H as (s1 & s2 & -> & H1 & H2).
      apply m_seq_cons; [by apply IH1|done]. }
    destruct (nullable r1) eqn:Hn; split; intros H.
    + apply alt_inv in H as [H|H]; [by apply Hseq|].
      change (a :: s) with ([] ++ a :: s). constructor.
      * by apply nullable_spec.
      * by apply IH2.
    + apply seq_inv in H as (s1 & s2 & Heq & H1 & H2).
      destruct s1 as [|b s1]; simpl in Heq; subst.
      * apply m_alt_r. by apply IH2.
      * injection Heq as <- ->. apply m_alt_l. constructor; [|done].
        by apply IH1.
    + by apply Hseq.
    + apply seq_inv in H as (s1 & s2 & Heq & H1 & H2).
      destruct s1 as [|b s1]; simpl in Heq; subst.
      * apply nullable_spec in H1. congruence.
      * injection Heq as <- ->. constructor; [|done]. by apply IH1.
  - split; intros H.
    + apply alt_inv in H as [H|H];
        [apply m_alt_l; by apply IH1|apply m_alt_r; by apply IH2].
    + apply alt_inv in H as [H|H];
        [apply m_alt_l; by apply IH1|apply m_alt_r; by apply IH2].
  - split; intros H.
    + apply seq_inv in H as (s1 & s2 & -> & H1 & H2).
      apply IH in H1. change (a :: s1 ++ s2) with ((a :: s1) ++ s2).
      by constructor.
    + apply star_cons_inv in H as (s1 & s2 & -> & H1 & H2).
      constructor; [by apply IH|done].
  - split; intros H.
    + apply seq_inv in H as (s1 & s2 & -> & H1 & H2).
      apply IH in H1. change (a :: s1 ++ s2) with ((a :: s1) ++ s2).
      by constructor.
    + apply plus_inv in H as (s1 & s2 & Heq & H1 & H2).
      destruct s1 as [|b s1]; simpl in Heq; subst.
      * apply star_cons_inv in H2 as (t1 & t2 & -> & Ht1 & Ht2).
        constructor; [by apply IH|done].
      * injection Heq as <- ->. constructor; [by apply IH|done].
Qed.

(** The matcher decides the language. *)
Lemma rx_match_spec r s : rx_match r s = true ↔ matches r s.
Proof.
  revert r. induction s as [|a s IH]; intros r; simpl.
  - apply nullable_spec.
  - rewrite IH. apply deriv_spec.
Qed.

(** The words of [[^c]*] and [[^c]+]. *)
Lemma star_notchr c s : matches (Star (NotChr c)) s ↔ Forall (λ a, a ≠ c) s.
Proof.
  split.
  - revert c. induction s as [|a s IH]; intros c H; [constructor|].
    apply star_cons_inv in H as (s1 & s2 & -> & H1 & H2).
    inversion H1; subst. simpl. constructor; [done|]. by apply IH.
  - induction 1 as [|a s Ha _ IH]; [constructor|].
    change (a :: s) with ([a] ++ s). constructor; [by constructor|done].
Qed.

Lemma plus_notchr c s :
  matches (Plus (NotChr c)) s ↔ s ≠ [] ∧ Forall (λ a, a ≠ c) s.
Proof.
  split.
  - intros H. apply plus_inv in H as (s1 & s2 & -> & H1 & H2).
    inversion H1; subst. simpl. split; [done|].
    constructor; [done|]. by apply star_notchr.
  - intros [Hne H]. destruct H as [|a s Ha H]; [done|].
    change (a :: s) with ([a] ++ s).
    constructor; [by constructor|by apply star_notchr].
Qed.

End RegexFacts.

(** ** The language of the e-mail pattern *)

Module EmailFacts.
Import Regex RegexFacts.

Lemma list_ascii_app s1 s2 :
  list_ascii_of_string (s1 +:+ s2)
  = list_ascii_of_string s1 ++ list_ascii_of_string s2.
Proof. induction s1 as [|a s1 IH]; simpl; [done|]. by rewrite <- IH. Qed.

Lemma string_of_list_ascii_app l1 l2 :
  string_of_list_ascii (l1 ++ l2)
  = string_of_list_ascii l1 +:+ string_of_list_ascii l2.
Proof. induction l1 as [|a l1 IH]; simpl; [done|]. by rewrite IH. Qed.

Lemma list_ascii_nil s : list_ascii_of_string s = [] ↔ s = "".
Proof. destruct s; simpl; split; congruence. Qed.

(** The language of the body of the pattern, on character lists. *)
Lemma email_body_spec s :
  matches email_body s ↔
  ∃ l d r, s = l ++ at_sign :: d ++ full_stop :: r
           ∧ (l ≠ [] ∧ Forall (λ a, a ≠ at_sign) l)
           ∧ (d ≠ [] ∧ Forall (λ a, a ≠ at_sign) d)
           ∧ (r ≠ [] ∧ Forall (λ a, a ≠ at_sign) r).
Proof.
  unfold email_body. split.
  - intros H.
    apply seq_inv in H as (l & s1 & -> & Hl & H).
    apply seq_inv in H as (a & s2 & -> & Ha & H).
    apply seq_inv in H as (d & s3 & -> & Hd & H).
    apply seq_inv in H as (b & r & -> & Hb & Hr).
    inversion Ha; subst. inversion Hb; subst.
    exists l, d, r. rewrite <- !plus_notchr. done.
  - intros (l & d & r & -> & Hl & Hd & Hr).
    rewrite <- plus_notchr in Hl, Hd, Hr.
    constructor; [done|].
    change (at_sign :: d ++ full_stop :: r)
      with ([at_sign] ++ d ++ [full_stop] ++ r).
    repeat (constructor; try done).
Qed.

(** A match that stops before a final newline is also a match of the
    whole string: the last [[^@]+] takes the newline. *)
Lemma email_body_newline s :
  matches email_body s → matches email_body (s ++ [newline]).
Proof.
  rewrite !email_body_spec. intros (l & d & r & -> & Hl & Hd & Hr & Hr').
  exists l, d, (r ++ [newline]). split_and!; try tauto.
  - rewrite <- !app_assoc. simpl. by rewrite <- app_assoc.
  - by destruct r.
  - apply Forall_app. split; [done|]. by repeat constructor.
Qed.

Lemma last_removelast (s : list ascii) c :
  last s = Some c → s = removelast s ++ [c].
Proof.
  induction s as [|a [|b s] IH]; intros H.
  - done.
  - simpl in *. congruence.
  - change (a :: b :: s = a :: (removelast (b :: s) ++ [c])).
    f_equal. by apply IH.
Qed.

Lemma match_anchored_email s :
  match_anchored email_body s = rx_match email_body s.
Proof.
  unfold match_anchored. destruct (rx_match email_body s) eqn:Hm; [done|].
  simpl. destruct (last s) as [c|] eqn:Hl; [|done].
  destruct (Ascii.eqb_spec c newline) as [->|]; [|done]. simpl.
  destruct (rx_match email_body (removelast s)) eqn:Hm'; [|done].
  apply rx_match_spec, email_body_newline in Hm'.
  rewrite <- (last_removelast _ _ Hl) in Hm'.
  apply rx_match_spec in Hm'. congruence.
Qed.

(** [_email_rx] accepts exactly the strings of [email_shape]. *)
Lemma _email_rx_spec s : _email_rx s = true ↔ email_shape s.
Proof.
  unfold _email_rx. rewrite match_anchored_email, rx_match_spec.
  rewrite email_body_spec. unfold email_shape, no_at. split.
  - intros (l & d & r & Hs & [Hl Hl'] & [Hd Hd'] & [Hr Hr']).
    exists (string_of_list_ascii l), (string_of_list_ascii d),
      (string_of_list_ascii r).
    rewrite !list_ascii_of_string_of_list_ascii.
    rewrite <- !list_ascii_nil, !list_ascii_of_string_of_list_ascii.
    split_and!; try done.
    rewrite <- (string_of_list_ascii_of_string s), Hs.
    rewrite string_of_list_ascii_app. simpl.
    rewrite string_of_list_ascii_app. reflexivity.
  - intros (l & d & r & -> & Hl & Hd & Hr & Hl' & Hd' & Hr').
    exists (list_ascii_of_string l), (list_ascii_of_string d),
      (list_ascii_of_string r).
    rewrite !list_ascii_nil. split_and!; try done.
    rewrite !list_ascii_app. reflexivity.
Qed.

Lemma _email_rx_false s : _email_rx s = false ↔ ¬ email_shape s.
Proof. rewrite <- _email_rx_spec. by destruct (_email_rx s). Qed.

End EmailFacts.

Import EmailFacts.

(** ** Dictionaries *)

Section DictFacts.
Context {V : Type}.

Lemma dict_get_set (d : list (string * V)) k k' v :
  dict_get (dict_set d k v) k' = if decide (k' = k) then Some v else dict_get d k'.
Proof.
  induction d as [|[k0 v0] d IH]; simpl.
  - by destruct (decide (k' = k)).
  - destruct (decide (k = k0)) as [->|Hne]; simpl.
    + by destruct (decide (k' = k0)).
    + rewrite IH. destruct (decide (k' = k0)) as [->|]; [|done].
      by rewrite decide_False.
Qed.

Lemma dict_get_mutate (d : list (string * V)) k k' f :
  dict_get (dict_mutate d k f) k'
  = if decide (k' = k) then f <$> dict_get d k' else dict_get d k'.
Proof.
  induction d as [|[k0 v0] d IH]; simpl.
  - by destruct (decide (k' = k)).
  - destruct (decide (k = k0)) as [->|Hne]; simpl.
    + by destruct (decide (k' = k0)).
    + rewrite IH. destruct (decide (k' = k0)) as [->|]; [|done].
      by rewrite decide_False.
Qed.

Lemma dict_mutate_keys (d : list (string * V)) k f : (dict_mutate d k f).*1 = d.*1.
Proof.
  induction d as [|[k0 v0] d IH]; simpl; [done|].
  destruct (decide (k = k0)); simpl; [done|]. by f_equal.
Qed.

Lemma dict_get_elem_of (d : list (string * V)) k v : dict_get d k = Some v → (k, v) ∈ d.
Proof.
  induction d as [|[k0 v0] d IH]; simpl; [done|].
  destruct (decide (k = k0)) as [->|]; intros H.
  - simplify_eq. apply list_elem_of_here.
  - apply list_elem_of_further. by apply IH.
Qed.

End DictFacts.

(** ** Sorting *)

Section SortBy.
Context {A : Type} (le : A → A → bool).

Lemma insert_by_perm x l : insert_by le x l ≡ₚ x :: l.
Proof.
  induction l as [|y l IH]; simpl; [done|].
  destruct (le x y); [done|]. rewrite IH. apply Permutation_swap.
Qed.

Lemma sort_by_perm l : sort_by le l ≡ₚ l.
Proof.
  induction l as [|x l IH]; simpl; [done|].
  rewrite insert_by_perm. by rewrite IH.
Qed.

Hypothesis le_total : ∀ x y, le x y = true ∨ le y x = true.
Hypothesis le_trans : ∀ x y z, le x y = true → le y z = true → le x z = true.

Lemma insert_by_sorted x l :
  StronglySorted (λ a b, le a b = true) l →
  StronglySorted (λ a b, le a b = true) (insert_by le x l).
Proof.
  induction 1 as [|y l Hl IH Hy]; simpl.
  - repeat constructor.
  - destruct (le x y) eqn:Hxy.
    + constructor; [by constructor|]. constructor; [done|].
      eapply Forall_impl; [exact Hy|]. intros z Hz. by eapply le_trans.
    + constructor; [done|]. rewrite insert_by_perm.
      constructor; [|done]. destruct (le_total x y); congruence.
Qed.

Lemma sort_by_sorted l : StronglySorted (λ a b, le a b = true) (sort_by le l).
Proof.
  induction l as [|x l IH]; simpl; [constructor|]. by apply insert_by_sorted.
Qed.

End SortBy.

Lemma leb_total (a b : string) : String.leb a b = true ∨ String.leb b a = true.
Proof. apply String.leb_total. Qed.

Lemma leb_trans (a b c : string) :
  String.leb a b = true → String.leb b c = true → String.leb a c = true.
Proof.
  intros H1 H2. apply Is_true_true.
  apply Is_true_true in H1, H2.
  change (String.le a c). by trans b.
Qed.

Lemma tuple_leb_total k1 k2 : tuple_leb k1 k2 = true ∨ tuple_leb k2 k1 = true.
Proof.
  unfold tuple_leb. destruct (decide (k1.1 = k2.1)) as [Heq|Hne].
  - rewrite decide_True by done. apply leb_total.
  - rewrite decide_False by done. apply leb_total.
Qed.

Lemma tuple_leb_trans k1 k2 k3 :
  tuple_leb k1 k2 = true → tuple_leb k2 k3 = true → tuple_leb k1 k3 = true.
Proof.
  unfold tuple_leb. intros H12 H23.
  destruct (decide (k1.1 = k2.1)) as [E12|N12],
           (decide (k2.1 = k3.1)) as [E23|N23].
  - rewrite decide_True by congruence. by eapply leb_trans.
  - rewrite decide_False by congruence. by rewrite E12.
  - rewrite decide_False by congruence. by rewrite <- E23.
  - destruct (decide (k1.1 = k3.1)) as [E13|N13]; [|by eapply leb_trans].
    rewrite <- E13 in H23. destruct N12. by apply String.leb_antisym.
Qed.

(** The order of [sort_key], spelled out: earlier date first (dates
    compared as strings), and for equal dates the smaller identifier. *)
Lemma gig_leb_spec x y :
  gig_leb x y = true ↔
  (g_date x ≠ g_date y ∧ String.leb (g_date x) (g_date y) = true)
  ∨ (g_date x = g_date y ∧ String.leb (g_id x) (g_id y) = true).
Proof.
  unfold gig_leb, tuple_leb, sort_key; simpl.
  destruct (decide (g_date x = g_date y)); tauto.
Qed.

(** ** The connection registry *)

Lemma add_events_nil w : add_events [] w = w.
Proof. destruct w. unfold add_events. simpl. by rewrite app_nil_r. Qed.

Lemma add_events_app l1 l2 w :
  add_events l2 (add_events l1 w) = add_events (l1 ++ l2) w.
Proof. unfold add_events. simpl. by rewrite app_assoc. Qed.

Lemma send_loop l payload w :
  for_each l (λ ws, try_pass (send_json ws payload)) w
  = (add_events (frames w payload l) w, Return tt).
Proof.
  revert w. induction l as [|ws l IH]; intros w.
  - simpl. unfold ret. by rewrite add_events_nil.
  - simpl. unfold bind at 1, try_pass, send_json, bind, get_world, raise, modify.
    unfold frames. rewrite filter_cons.
    destruct (decide (ws ∈ broken w)) as [Hb|Hb]; simpl.
    + rewrite decide_False by (intros ?; done). apply IH.
    + rewrite decide_True by done. rewrite IH. simpl. f_equal.
      change (add_event (FrameSent ws payload) w)
        with (add_events [FrameSent ws payload] w) at 2.
      by rewrite add_events_app.
  Qed.

Lemma send_to_user_eq user_id payload w :
  send_to_user user_id payload w
  = (add_events (PushCalled user_id payload
                   :: frames w payload (elements (channels w user_id))) w,
     Return tt).
Proof.
  unfold send_to_user, bind, modify, get_world. rewrite send_loop.
  f_equal. unfold add_events, add_event, frames, channels. simpl.
  by rewrite <- app_assoc.
Qed.

(** ** Closed forms of the handlers *)

Lemma assign_gent_eq gig_id gent_id assigned w g :
  gent_id ∈ GENTS →
  dict_get (gigs w) gig_id = Some g →
  assign_gent gig_id gent_id assigned w
  = (add_events
       (if negb (Bool.eqb (bool_decide (gent_id ∈ assigned_to w gig_id)) assigned)
        then push_events w gent_id else [])
       (set_gig_assignments
          <[gig_id := toggled (assigned_to w gig_id) gent_id assigned]> w),
     Return (gig_id, sorted (toggled (assigned_to w gig_id) gent_id assigned))).
Proof.
  intros Hgent Hgig. unfold assign_gent.
  rewrite bool_decide_true by done. simpl.
  unfold bind at 1. unfold ensure_gig, bind at 1, get_world. rewrite Hgig.
  unfold ret at 1. unfold bind at 1, modify at 1. unfold bind at 1.
  set (w0 := set_gig_assignments _ w).
  assert (Hs0 : assigned_to w0 gig_id = assigned_to w gig_id).
  { unfold assigned_to, w0. simpl. by rewrite lookup_insert_eq. }
  rewrite Hs0. unfold toggled, push_events.
  destruct assigned;
    destruct (bool_decide (gent_id ∈ assigned_to w gig_id)); simpl;
    unfold bind, modify, get_world, ret; simpl;
    rewrite ?send_to_user_eq; simpl;
    unfold assigned_to, set_gig_assignments, add_events, frames, channels;
    simpl; rewrite ?lookup_insert_eq, ?insert_insert_eq, ?app_nil_r; simpl;
    reflexivity.
Qed.

Lemma assign_gent_unknown_gent gig_id gent_id assigned w :
  gent_id ∉ GENTS →
  assign_gent gig_id gent_id assigned w = (w, Raise UnknownWorkerError).
Proof. intros H. unfold assign_gent. by rewrite bool_decide_false. Qed.

Lemma assign_gent_unknown_gig gig_id gent_id assigned w :
  gent_id ∈ GENTS →
  dict_get (gigs w) gig_id = None →
  assign_gent gig_id gent_id assigned w = (w, Raise NotFoundError).
Proof.
  intros H Hg. unfold assign_gent. rewrite bool_decide_true by done. simpl.
  unfold bind at 1. unfold ensure_gig, bind, get_world. by rewrite Hg.
Qed.

(** Equations of the handler monad. *)
Lemma bind_ret {A B} (a : A) (k : A → M B) w : bind (ret a) k w = k a w.
Proof. done. Qed.
Lemma bind_raise {A B} e (k : A → M B) w : bind (raise e) k w = (w, Raise e).
Proof. done. Qed.
Lemma bind_get {B} (k : World → M B) w : bind get_world k w = k w w.
Proof. done. Qed.
Lemma bind_modify {B} f (k : unit → M B) w : bind (modify f) k w = k tt (f w).
Proof. done. Qed.
Lemma bind_eq {A B} (m : M A) (k : A → M B) w w' a :
  m w = (w', Return a) → bind m k w = k a w'.
Proof. intros H. unfold bind. by rewrite H. Qed.
Lemma bind_raise_eq {A B} (m : M A) (k : A → M B) w w' e :
  m w = (w', Raise e) → bind m k w = (w', Raise e).
Proof. intros H. unfold bind. by rewrite H. Qed.

Lemma task_loop l w :
  for_each l (λ gent, create_task_send_to_user gent gigs_changed) w
  = (w, match l with [] => Return tt | _ :: _ => Raise NoRunningLoop end).
Proof. by destruct l. Qed.

(** The notification loop of [update_gig]: it passes when nobody is
    assigned and raises at the first assignee. *)
Lemma notify_loop gig_id w :
  bind get_world
    (λ w0, for_each (elements (assigned_to w0 gig_id))
             (λ gent, create_task_send_to_user gent gigs_changed)) w
  = (w, if decide (assigned_to w gig_id = ∅)
        then Return tt else Raise NoRunningLoop).
Proof.
  rewrite bind_get, task_loop. f_equal.
  destruct (decide (assigned_to w gig_id = ∅)) as [->|Hne].
  - by rewrite elements_empty.
  - destruct (elements (assigned_to w gig_id)) eqn:Hel; [|done].
    apply elements_empty_inv in Hel. destruct Hne. by apply leibniz_equiv.
Qed.

Lemma dict_mutate_mutate {V} (d : list (string * V)) k f1 f2 :
  dict_mutate (dict_mutate d k f1) k f2 = dict_mutate d k (λ v, f2 (f1 v)).
Proof.
  induction d as [|[k0 v0] d IH]; simpl; [done|].
  destruct (decide (k = k0)) as [->|Hne]; simpl.
  - by rewrite decide_True.
  - rewrite decide_False by done. by rewrite IH.
Qed.

Lemma dict_mutate_id {V} (d : list (string * V)) k :
  dict_mutate d k (λ v, v) = d.
Proof.
  induction d as [|[k0 v0] d IH]; simpl; [done|].
  destruct (decide (k = k0)); [done|]. by rewrite IH.
Qed.

(** A valid (or absent) address on a stored gig: every present field is
    stored; then the call returns the stored object if the gig has no
    assignee, and raises at [create_task] if it has one. *)
Lemma update_gig_ok gig_id date client_email fee w g :
  dict_get (gigs w) gig_id = Some g →
  (∀ e, client_email = Some e → _email_rx e = true) →
  update_gig gig_id date client_email fee w
  = (set_gigs (λ d, dict_mutate d gig_id (patch date client_email fee)) w,
     if decide (assigned_to w gig_id = ∅)
     then Return (patch date client_email fee g)
     else Raise NoRunningLoop).
Proof.
  intros Hg He. unfold update_gig.
  erewrite bind_eq; [|unfold ensure_gig; rewrite bind_get, Hg; reflexivity].
  destruct (decide (assigned_to w gig_id = ∅)) as [Hs|Hs].
  - destruct date as [d|], client_email as [e|], fee as [f|];
      try rewrite (He e eq_refl); simpl; unfold setitem;
      repeat (rewrite bind_modify || rewrite bind_ret);
      (erewrite bind_eq;
       [|rewrite notify_loop; unfold assigned_to in *; simpl;
         rewrite decide_True by done; reflexivity]);
      unfold getitem; rewrite ?bind_get; simpl;
      rewrite ?dict_mutate_mutate, ?dict_get_mutate;
      rewrite ?decide_True by done; rewrite Hg; simpl;
      unfold ret, set_gigs, patch; simpl;
      rewrite ?dict_mutate_mutate, ?dict_mutate_id;
      first [reflexivity|by destruct w].
  - destruct date as [d|], client_email as [e|], fee as [f|];
      try rewrite (He e eq_refl); simpl; unfold setitem;
      repeat (rewrite bind_modify || rewrite bind_ret);
      (erewrite bind_raise_eq;
       [|rewrite notify_loop; unfold assigned_to in *; simpl;
         rewrite decide_False by done; reflexivity]);
      unfold set_gigs, patch; simpl;
      rewrite ?dict_mutate_mutate, ?dict_mutate_id;
      first [reflexivity|by destruct w].
Qed.

Lemma update_gig_not_found gig_id date client_email fee w :
  dict_get (gigs w) gig_id = None →
  update_gig gig_id date client_email fee w = (w, Raise NotFoundError).
Proof.
  intros Hg. unfold update_gig, ensure_gig. unfold bind at 1.
  by rewrite bind_get, Hg.
Qed.

(** An invalid address: the date, when present, has already been stored
    when the exception is raised; nothing after the check runs. *)
Lemma update_gig_invalid gig_id date e fee w g :
  dict_get (gigs w) gig_id = Some g →
  _email_rx e = false →
  update_gig gig_id date (Some e) fee w
  = (match date with
     | Some d => set_gigs (λ gs, dict_mutate gs gig_id (set_date d)) w
     | None => w
     end, Raise ValidationError).
Proof.
  intros Hg He. unfold update_gig.
  erewrite bind_eq; [|unfold ensure_gig; rewrite bind_get, Hg; reflexivity].
  rewrite He. simpl. destruct date as [d|]; unfold setitem;
    repeat (rewrite bind_modify || rewrite bind_ret); by rewrite bind_raise.
Qed.

(** ** Example states *)

Lemma w_one_gig : dict_get (gigs w_one) "g1" = Some gig1.
Proof. vm_compute. reflexivity. Qed.

Lemma w_assigned_gig : dict_get (gigs w_assigned) "g1" = Some gig1.
Proof. vm_compute. reflexivity. Qed.

Lemma w_assigned_set : assigned_to w_assigned "g1" = {["gent-1"]}.
Proof. vm_compute. reflexivity. Qed.

Lemma gent1_in_GENTS : "gent-1" ∈ GENTS.
Proof. apply (bool_decide_unpack ("gent-1" ∈ GENTS)). vm_compute. exact I. Qed.

Lemma gent9_not_in_GENTS : "gent-9" ∉ GENTS.
Proof. apply (bool_decide_unpack ("gent-9" ∉ GENTS)). vm_compute. exact I. Qed.

(** ** UpdateGig *)

(** C1 (code defect). [update_gig] stores the new date before it checks the
    address.  On the gig of [w_one], a patch with a new date, the invalid
    address ["bad"] and a new fee raises the validation error and leaves the
    stored date changed to the new one; address and fee keep their values.
    The claim asks for all three to be unchanged after the failed call. *)
Theorem update_gig_invalid_email_applies_date :
  ∃ w',
    update_gig "g1" (Some "2025-04-01") (Some "bad") (Some 1%Z) w_one
    = (w', Raise ValidationError)
    ∧ dict_get (gigs w_one) "g1"
      = Some (mkGig "g1" "2025-03-01" "client@example.com" 5000)
    ∧ dict_get (gigs w') "g1"
      = Some (mkGig "g1" "2025-04-01" "client@example.com" 5000).
Proof.
  eexists. split; [|split].
  - apply (update_gig_invalid _ _ _ _ _ gig1); [apply w_one_gig|].
    vm_compute. reflexivity.
  - vm_compute. reflexivity.
  - vm_compute. reflexivity.
Qed.

(** Success of [update_gig] means the gig is stored, the address, when
    present, is valid, and nobody is assigned to the gig. *)
Lemma update_gig_success_inv gig_id date client_email fee w w' g :
  update_gig gig_id date client_email fee w = (w', Return g) →
  ∃ g0, dict_get (gigs w) gig_id = Some g0
        ∧ (∀ e, client_email = Some e → _email_rx e = true)
        ∧ assigned_to w gig_id = ∅.
Proof.
  intros H. destruct (dict_get (gigs w) gig_id) as [g0|] eqn:Hg.
  - exists g0. split; [done|].
    assert (He : ∀ e, client_email = Some e → _email_rx e = true).
    { intros e ->. destruct (_email_rx e) eqn:He; [done|].
      rewrite (update_gig_invalid _ _ _ _ _ _ Hg He) in H. congruence. }
    split; [done|]. rewrite (update_gig_ok _ _ _ _ _ _ Hg He) in H.
    destruct (decide (assigned_to w gig_id = ∅)); [done|congruence].
  - rewrite update_gig_not_found in H by done. congruence.
Qed.

(** No call of [update_gig] adds anything to the trace. *)
Lemma update_gig_trace gig_id date client_email fee w :
  trace (fst (update_gig gig_id date client_email fee w)) = trace w.
Proof.
  destruct (dict_get (gigs w) gig_id) as [g|] eqn:Hg;
    [|by rewrite update_gig_not_found].
  destruct client_email as [a|]; [destruct (_email_rx a) eqn:Ha|].
  - by rewrite (update_gig_ok _ _ _ _ _ _ Hg) by (intros ? [= <-]; done).
  - rewrite (update_gig_invalid _ _ _ _ _ _ Hg Ha). by destruct date.
  - by rewrite (update_gig_ok _ _ _ _ _ _ Hg).
Qed.


(** C10 (code defect). With no field present, [update_gig] on the gig of
    [w_assigned], which has an assignee, does not return the record: it
    raises at [asyncio.create_task], the state is the one from before the
    call and no notification was initiated.  The claim asks for the record
    and for a notification to every assignee. *)
Theorem update_gig_empty_patch_raises :
  update_gig "g1" None None None w_assigned = (w_assigned, Raise NoRunningLoop)
  ∧ "gent-1" ∈ assigned_to w_assigned "g1"
  ∧ dict_get (gigs w_assigned) "g1" = Some gig1.
Proof.
  split_and!.
  - vm_compute. reflexivity.
  - rewrite w_assigned_set. by apply elem_of_singleton.
  - apply w_assigned_gig.
Qed.

(** ** SetAssignment: failures *)

(** C2, as the code has it: the roster check comes first.  A worker outside
    the roster gives the unknown-worker error whether or not the gig is
    stored; a roster worker on a gig that is not stored gives the not-found
    error.  Either way the state is the one before the call. *)
Theorem assign_gent_errors gig_id gent_id assigned w :
  gent_id ∉ GENTS ∨ dict_get (gigs w) gig_id = None →
  assign_gent gig_id gent_id assigned w
  = (w, Raise (if bool_decide (gent_id ∈ GENTS)
               then NotFoundError else UnknownWorkerError)).
Proof.
  intros H. destruct (decide (gent_id ∈ GENTS)) as [Hin|Hout].
  - rewrite bool_decide_true by done. destruct H as [H|H]; [done|].
    by apply assign_gent_unknown_gig.
  - rewrite bool_decide_false by done. by apply assign_gent_unknown_gent.
Qed.

Lemma assign_gent_errors_witness :
  assign_gent "no-such-gig" "gent-2" true w_one = (w_one, Raise NotFoundError)
  ∧ assign_gent "g1" "gent-9" true w_one = (w_one, Raise UnknownWorkerError).
Proof.
  split.
  - apply (assign_gent_errors "no-such-gig" "gent-2" true w_one).
    right. vm_compute. reflexivity.
  - apply (assign_gent_errors "g1" "gent-9" true w_one).
    left. apply gent9_not_in_GENTS.
Defined.

(** C2 as stated fails: an unknown gig together with a worker outside the
    roster gives the unknown-worker error, not the not-found error. *)
Lemma assign_gent_unknown_gig_and_gent :
  dict_get (gigs (initial ∅)) "no-such-gig" = None
  ∧ assign_gent "no-such-gig" "gent-9" true (initial ∅)
    = (initial ∅, Raise UnknownWorkerError)
  ∧ UnknownWorkerError ≠ NotFoundError.
Proof. split_and!; [done|vm_compute; reflexivity|discriminate]. Qed.

(** ** SetAssignment: toggling *)

Lemma pushes_app l1 l2 : pushes (l1 ++ l2) = pushes l1 ++ pushes l2.
Proof. apply omap_app. Qed.

Lemma pushes_frames w p l : pushes (frames w p l) = [].
Proof.
  unfold frames. induction (filter _ l) as [|ws l' IH]; [done|exact IH].
Qed.

Lemma pushes_push_events w u : pushes (push_events w u) = [(u, gigs_changed)].
Proof.
  unfold push_events. change (pushes (?e :: ?l)) with ((u, gigs_changed) :: pushes l).
  by rewrite pushes_frames.
Qed.

Lemma toggled_elem s u a : bool_decide (u ∈ toggled s u a) = a.
Proof.
  destruct a; simpl.
  - apply bool_decide_true. set_solver.
  - apply bool_decide_false. set_solver.
Qed.

Lemma toggled_same s u a : bool_decide (u ∈ s) = a → toggled s u a = s.
Proof.
  intros <-. unfold toggled. case_bool_decide; set_solver.
Qed.

Lemma toggled_idemp s u a : toggled (toggled s u a) u a = toggled s u a.
Proof. apply toggled_same, toggled_elem. Qed.

Lemma assigned_to_insert w gig_id s g' :
  assigned_to (set_gig_assignments <[gig_id := s]> w) g'
  = if decide (g' = gig_id) then s else assigned_to w g'.
Proof.
  unfold assigned_to. simpl. rewrite lookup_insert.
  destruct (decide (gig_id = g')) as [->|Hne].
  - by rewrite decide_True.
  - by rewrite decide_False by congruence.
Qed.

Lemma assigned_to_add_events l w g' :
  assigned_to (add_events l w) g' = assigned_to w g'.
Proof. done. Qed.

(** A call whose desired state is already the current one changes nothing
    that can be observed: same assignment sets, same trace. *)
Lemma assign_gent_same gig_id gent_id assigned w g :
  gent_id ∈ GENTS →
  dict_get (gigs w) gig_id = Some g →
  bool_decide (gent_id ∈ assigned_to w gig_id) = assigned →
  ∃ w', assign_gent gig_id gent_id assigned w
        = (w', Return (gig_id, sorted (assigned_to w gig_id)))
        ∧ gigs w' = gigs w
        ∧ trace w' = trace w
        ∧ ∀ g', assigned_to w' g' = assigned_to w g'.
Proof.
  intros Hu Hg Hsame. eexists. split.
  - rewrite (assign_gent_eq _ _ _ _ _ Hu Hg).
    rewrite (toggled_same _ _ _ Hsame), Hsame, Bool.eqb_reflx. reflexivity.
  - simpl. rewrite app_nil_r. split_and!; try done.
    intros g'. rewrite assigned_to_add_events, assigned_to_insert.
    destruct (decide (g' = gig_id)) as [->|]; done.
Qed.

(** C4. [assign_gent] is idempotent: on a stored gig and a roster worker, two
    calls in a row with the same desired state return the same sorted
    list; the second call leaves the trace as the first left it, so the two
    calls together call [send_to_user] at most once; and a call whose
    desired state already holds returns the sorted current set and changes
    neither the assignment sets nor the trace. *)
Theorem assign_gent_idempotent gig_id gent_id assigned w g :
  gent_id ∈ GENTS →
  dict_get (gigs w) gig_id = Some g →
  ∃ w1 w2 l,
    assign_gent gig_id gent_id assigned w = (w1, Return (gig_id, l))
    ∧ assign_gent gig_id gent_id assigned w1 = (w2, Return (gig_id, l))
    ∧ l = sorted (toggled (assigned_to w gig_id) gent_id assigned)
    ∧ trace w2 = trace w1
    ∧ (∀ g', assigned_to w2 g' = assigned_to w1 g')
    ∧ length (pushes (trace w2)) ≤ length (pushes (trace w)) + 1
    ∧ (bool_decide (gent_id ∈ assigned_to w gig_id) = assigned →
       l = sorted (assigned_to w gig_id)
       ∧ trace w1 = trace w
       ∧ ∀ g', assigned_to w1 g' = assigned_to w g').
Proof.
  intros Hu Hg.
  pose proof (assign_gent_eq gig_id gent_id assigned w g Hu Hg) as H1.
  set (w1 := add_events _ _) in H1.
  assert (Hs1 : assigned_to w1 gig_id
                = toggled (assigned_to w gig_id) gent_id assigned).
  { unfold w1. rewrite assigned_to_add_events, assigned_to_insert.
    by rewrite decide_True. }
  destruct (assign_gent_same gig_id gent_id assigned w1 g Hu Hg)
    as (w2 & H2 & _ & Htr & Hsets).
  { rewrite Hs1. apply toggled_elem. }
  exists w1, w2, (sorted (toggled (assigned_to w gig_id) gent_id assigned)).
  split_and!; try done.
  - by rewrite H2, Hs1.
  - rewrite Htr. unfold w1. simpl. rewrite pushes_app, length_app.
    destruct (negb _); [rewrite pushes_push_events|]; simpl; lia.
  - intros Hsame.
    destruct (assign_gent_same gig_id gent_id assigned w g Hu Hg Hsame)
      as (w1' & H1' & _ & Htr' & Hsets').
    rewrite H1 in H1'. injection H1' as Hw Hl. rewrite Hw. done.
Qed.

Lemma assign_gent_idempotent_witness :
  ∃ w1 w2,
    assign_gent "g1" "gent-1" true w_one = (w1, Return ("g1", ["gent-1"]))
    ∧ assign_gent "g1" "gent-1" true w1 = (w2, Return ("g1", ["gent-1"]))
    ∧ trace w2 = trace w1.
Proof.
  destruct (assign_gent_idempotent "g1" "gent-1" true w_one gig1
              gent1_in_GENTS w_one_gig)
    as (w1 & w2 & l & H1 & H2 & Hl & Htr & _).
  exists w1, w2. subst l. split_and!; [exact H1|exact H2|exact Htr].
Defined.

(** C9, for a worker who is not assigned beforehand: assigning and then
    unassigning a roster worker on a stored gig returns the sorted list of the
    state before the first call and restores every assignment set. *)
Theorem assign_then_unassign gig_id gent_id w g :
  gent_id ∈ GENTS →
  dict_get (gigs w) gig_id = Some g →
  gent_id ∉ assigned_to w gig_id →
  ∃ w1 w2 l1,
    assign_gent gig_id gent_id true w = (w1, Return (gig_id, l1))
    ∧ assign_gent gig_id gent_id false w1
      = (w2, Return (gig_id, sorted (assigned_to w gig_id)))
    ∧ gigs w2 = gigs w
    ∧ ∀ g', assigned_to w2 g' = assigned_to w g'.
Proof.
  intros Hu Hg Hnot.
  pose proof (assign_gent_eq gig_id gent_id true w g Hu Hg) as H1.
  set (w1 := add_events _ _) in H1.
  assert (Hs1 : assigned_to w1 gig_id = assigned_to w gig_id ∪ {[gent_id]}).
  { unfold w1. rewrite assigned_to_add_events, assigned_to_insert.
    by rewrite decide_True. }
  pose proof (assign_gent_eq gig_id gent_id false w1 g Hu Hg) as H2.
  set (w2 := add_events _ _) in H2.
  assert (Hback : toggled (assigned_to w1 gig_id) gent_id false
                  = assigned_to w gig_id).
  { rewrite Hs1. unfold toggled. set_solver. }
  exists w1, w2, (sorted (toggled (assigned_to w gig_id) gent_id true)).
  split_and!; try done.
  - by rewrite H2, Hback.
  - intros g'. unfold w2.
    rewrite assigned_to_add_events, assigned_to_insert, Hback.
    destruct (decide (g' = gig_id)) as [->|Hne]; [done|].
    unfold w1. rewrite assigned_to_add_events, assigned_to_insert.
    by rewrite decide_False.
Qed.

Lemma assign_then_unassign_witness :
  ∃ w1 w2 l1,
    assign_gent "g1" "gent-1" true w_one = (w1, Return ("g1", l1))
    ∧ assign_gent "g1" "gent-1" false w1
      = (w2, Return ("g1", sorted (assigned_to w_one "g1")))
    ∧ gigs w2 = gigs w_one
    ∧ ∀ g', assigned_to w2 g' = assigned_to w_one g'.
Proof.
  apply (assign_then_unassign "g1" "gent-1" w_one gig1).
  - apply gent1_in_GENTS.
  - apply w_one_gig.
  - apply (bool_decide_unpack ("gent-1" ∉ assigned_to w_one "g1")).
    vm_compute. exact I.
Defined.

(** C9 as stated fails when the worker is assigned beforehand: the pair of
    calls ends with the worker removed. *)
Lemma assign_then_unassign_already_assigned :
  sorted (assigned_to w_assigned "g1") = ["gent-1"]
  ∧ assign_gent "g1" "gent-1" false
      (fst (assign_gent "g1" "gent-1" true w_assigned))
    = (exec (SetAssignment "g1" "gent-1" false) w_assigned, Return ("g1", []))
  ∧ sorted
      (assigned_to
         (fst (assign_gent "g1" "gent-1" false
                 (fst (assign_gent "g1" "gent-1" true w_assigned)))) "g1")
    = [].
Proof. split_and!; vm_compute; reflexivity. Qed.

(** ** ListGigsForWorker *)

Lemma ltb_leb_ne (a b : string) :
  String.ltb a b = true ↔ String.leb a b = true ∧ a ≠ b.
Proof.
  unfold String.ltb, String.leb. split.
  - intros H. destruct (String.compare a b) eqn:Hc; try discriminate.
    split; [done|]. intros ->.
    assert (String.leb b b = true) as Hr
      by (apply Is_true_true; change (String.le b b); done).
    unfold String.leb in Hr. rewrite String.compare_antisym in Hc.
    destruct (String.compare b b); simpl in *; congruence.
  - intros [H Hne]. destruct (String.compare a b) eqn:Hc; try done.
    by apply String.compare_eq_iff in Hc.
Qed.

Lemma gig_leb_date_id x y : gig_leb x y = true ↔ date_id_le x y.
Proof.
  rewrite gig_leb_spec. unfold date_id_le. rewrite ltb_leb_ne. tauto.
Qed.

Lemma StronglySorted_weaken {A} (R1 R2 : A → A → Prop) l :
  (∀ x y, R1 x y → R2 x y) → StronglySorted R1 l → StronglySorted R2 l.
Proof.
  intros HR. induction 1 as [|x l Hl IH Hx]; constructor; [done|].
  eapply Forall_impl; [exact Hx|]. intros y. apply HR.
Qed.

Lemma gigs_of_elem w gent_id g :
  g ∈ gigs_of w gent_id ↔
  ∃ gid, (gid, g) ∈ gigs w ∧ gent_id ∈ assigned_to w gid.
Proof.
  unfold gigs_of. rewrite list_elem_of_omap. split.
  - intros ([gid g'] & Hin & Hsome). case_bool_decide; [|done].
    injection Hsome as ->. eauto.
  - intros (gid & Hin & Hu). exists (gid, g). split; [done|].
    by rewrite bool_decide_true.
Qed.

(** C5. For a roster worker [gigs_for_gent] returns, without changing the
    state, the stored gigs whose assignment set contains the worker: every
    such gig and no other, as a rearrangement of the gigs collected in
    dictionary order, sorted ascending by [(date, id)] with strings compared
    as such.  For a worker outside the roster it raises the unknown-worker
    error. *)
Theorem gigs_for_gent_spec gent_id w :
  (gent_id ∈ GENTS →
   ∃ l, gigs_for_gent gent_id w = (w, Return l)
        ∧ (∀ g, g ∈ l ↔
                ∃ gid, (gid, g) ∈ gigs w ∧ gent_id ∈ assigned_to w gid)
        ∧ l ≡ₚ gigs_of w gent_id
        ∧ StronglySorted date_id_le l)
  ∧ (gent_id ∉ GENTS →
     gigs_for_gent gent_id w = (w, Raise UnknownWorkerError)).
Proof.
  split; intros Hu; unfold gigs_for_gent.
  - rewrite bool_decide_true by done. simpl.
    exists (sort_by gig_leb (gigs_of w gent_id)). split_and!.
    + reflexivity.
    + intros g. rewrite <- gigs_of_elem.
      by rewrite (sort_by_perm gig_leb (gigs_of w gent_id)).
    + apply sort_by_perm.
    + eapply StronglySorted_weaken;
        [|apply (sort_by_sorted gig_leb)].
      * intros x y. apply gig_leb_date_id.
      * intros x y. apply tuple_leb_total.
      * intros x y z. apply tuple_leb_trans.
  - by rewrite bool_decide_false.
Qed.

Lemma gigs_for_gent_spec_witness :
  gigs_for_gent "gent-1" w_two
  = (w_two, Return [mkGig "g0" "2025-02-01" "b@example.com" 2;
                    mkGig "g1" "2025-03-01" "a@example.com" 1])
  ∧ gigs_for_gent "gent-9" w_two = (w_two, Raise UnknownWorkerError).
Proof.
  split.
  - destruct (proj1 (gigs_for_gent_spec "gent-1" w_two) gent1_in_GENTS)
      as (l & Hrun & _).
    rewrite Hrun. vm_compute in Hrun. injection Hrun as <-. reflexivity.
  - apply (proj2 (gigs_for_gent_spec "gent-9" w_two) gent9_not_in_GENTS).
Defined.

(** ** CreateGig *)

Lemma create_gig_invalid gid date client_email fee w :
  _email_rx client_email = false →
  create_gig gid date client_email fee w = (w, Raise ValidationError).
Proof. intros H. unfold create_gig. by rewrite H. Qed.

Lemma create_gig_valid gid date client_email fee w :
  _email_rx client_email = true →
  create_gig gid date client_email fee w
  = (set_gig_assignments <[gid := ∅]>
       (set_gigs (λ d, dict_set d gid (mkGig gid date client_email fee)) w),
     Return (mkGig gid date client_email fee)).
Proof.
  intros H. unfold create_gig. rewrite H. simpl.
  rewrite !bind_modify. unfold getitem. rewrite bind_get. simpl.
  rewrite dict_get_set. by rewrite decide_True.
Qed.

(** C6, with the shape the pattern really has ([email_shape]: exactly one
    ["@"], something before it, and after it a ["."] with something on
    both sides).  [create_gig] raises the validation error exactly for the
    addresses outside that shape, among them the three examples, and then
    leaves the state as it was; for an address of that shape it returns the
    full record, which is then stored under its identifier with an empty
    assignment set, the other entries being as before. *)
Theorem create_gig_spec gid date client_email fee w :
  (snd (create_gig gid date client_email fee w) = Raise ValidationError
   ↔ ¬ email_shape client_email)
  ∧ (¬ email_shape client_email →
     create_gig gid date client_email fee w = (w, Raise ValidationError))
  ∧ (email_shape client_email →
     ∃ w', create_gig gid date client_email fee w
           = (w', Return (mkGig gid date client_email fee))
           ∧ dict_get (gigs w') gid = Some (mkGig gid date client_email fee)
           ∧ gig_assignments w' !! gid = Some ∅
           ∧ (∀ k, k ≠ gid →
                   dict_get (gigs w') k = dict_get (gigs w) k
                   ∧ gig_assignments w' !! k = gig_assignments w !! k)
           ∧ connections w' = connections w
           ∧ trace w' = trace w)
  ∧ (∀ e, e ∈ ["bad"; "bad@nodot"; "@missing-local.com"] → ¬ email_shape e).
Proof.
  assert (Hbad : ¬ email_shape client_email →
                 create_gig gid date client_email fee w
                 = (w, Raise ValidationError)).
  { intros H. by apply create_gig_invalid, _email_rx_false. }
  split_and!.
  - split.
    + intros Hr Hs. apply _email_rx_spec in Hs.
      rewrite create_gig_valid in Hr by done. discriminate.
    + intros H. by rewrite Hbad.
  - exact Hbad.
  - intros Hs. apply _email_rx_spec in Hs. eexists. split.
    + by apply create_gig_valid.
    + simpl. rewrite dict_get_set, decide_True, lookup_insert_eq by done.
      split_and!; try done. intros k Hk.
      rewrite dict_get_set, decide_False, lookup_insert_ne by done. done.
  - intros e He. apply _email_rx_false.
    repeat (apply elem_of_cons in He as [->|He]; [vm_compute; reflexivity|]).
    by apply elem_of_nil in He.
Qed.

Lemma client_example_shape : email_shape "client@example.com".
Proof. apply _email_rx_spec. vm_compute. reflexivity. Qed.

Lemma bad_not_shape : ¬ email_shape "bad".
Proof. apply _email_rx_false. vm_compute. reflexivity. Qed.

Lemma create_gig_spec_witness :
  (∃ w', create_gig "g1" "2025-03-01" "client@example.com" 5000 (initial ∅)
         = (w', Return gig1)
         ∧ gig_assignments w' !! "g1" = Some ∅)
  ∧ create_gig "g1" "2025-03-01" "bad" 5000 (initial ∅)
    = (initial ∅, Raise ValidationError).
Proof.
  pose proof (create_gig_spec "g1" "2025-03-01" "client@example.com" 5000
                (initial ∅)) as (_ & _ & Hok & _).
  pose proof (create_gig_spec "g1" "2025-03-01" "bad" 5000
                (initial ∅)) as (_ & Hbad & _).
  split.
  - destruct (Hok client_example_shape) as (w' & Hrun & _ & Hset & _).
    exists w'. split; [exact Hrun|exact Hset].
  - exact (Hbad bad_not_shape).
Defined.

(** C6 as stated fails: ["a@.com"] and ["a@b@c.d"] have a non-empty local
    part, an ["@"], and a non-empty domain containing a ["."] with a
    non-empty remainder, and [create_gig] rejects both. *)
Lemma create_gig_rejects_worded_shape :
  email_shape_spec "a@.com"
  ∧ create_gig "g1" "2025-03-01" "a@.com" 5000 (initial ∅)
    = (initial ∅, Raise ValidationError)
  ∧ email_shape_spec "a@b@c.d"
  ∧ create_gig "g1" "2025-03-01" "a@b@c.d" 5000 (initial ∅)
    = (initial ∅, Raise ValidationError).
Proof.
  split_and!.
  - exists "a", ".com". split_and!; try done. by exists "", "com".
  - vm_compute. reflexivity.
  - exists "a", "b@c.d". split_and!; try done. by exists "b@c", "d".
  - vm_compute. reflexivity.
Qed.

(** ** Push *)

(** C8. [send_to_user] always returns: it never raises, whatever channels
    are broken.  It touches none of the dictionaries; every channel of the
    user that is not broken receives the payload even when other channels
    of the same user raise; and with no channel the call sends nothing. *)
Theorem send_to_user_never_raises user_id payload w :
  ∃ w',
    send_to_user user_id payload w = (w', Return tt)
    ∧ gigs w' = gigs w
    ∧ gig_assignments w' = gig_assignments w
    ∧ connections w' = connections w
    ∧ trace w'
      = trace w ++ PushCalled user_id payload
                   :: frames w payload (elements (channels w user_id))
    ∧ (∀ ws, ws ∈ channels w user_id → ws ∉ broken w →
             FrameSent ws payload ∈ trace w')
    ∧ (∀ ws, ws ∈ broken w → FrameSent ws payload ∈ trace w' →
             FrameSent ws payload ∈ trace w)
    ∧ (channels w user_id = ∅ →
       trace w' = trace w ++ [PushCalled user_id payload]).
Proof.
  eexists. split; [apply send_to_user_eq|]. simpl. split_and!; try done.
  - intros ws Hws Hok. apply elem_of_app. right. apply list_elem_of_further.
    apply list_elem_of_fmap. exists ws. split; [done|].
    apply list_elem_of_filter. split; [done|]. by apply elem_of_elements.
  - intros ws Hb [Hin|Hin]%elem_of_app; [done|].
    apply elem_of_cons in Hin as [Heq|Hin]; [discriminate|].
    apply list_elem_of_fmap in Hin as (ws' & Heq & Hin).
    injection Heq as <-. apply list_elem_of_filter in Hin as [Hnb _]. done.
  - intros ->. by rewrite elements_empty.
Qed.

(** The two other channels still get the frame, and the call returns. *)
Lemma send_to_user_never_raises_witness :
  ∃ w',
    send_to_user "gent-1" gigs_changed w_channels = (w', Return tt)
    ∧ FrameSent 1 gigs_changed ∈ trace w'
    ∧ FrameSent 3 gigs_changed ∈ trace w'
    ∧ FrameSent 2 gigs_changed ∉ trace w'.
Proof.
  destruct (send_to_user_never_raises "gent-1" gigs_changed w_channels)
    as (w' & Hrun & _ & _ & _ & _ & Hgood & Hbad & _).
  exists w'. split; [exact Hrun|]. split_and!.
  - apply Hgood.
    + apply (bool_decide_unpack (1 ∈ channels w_channels "gent-1")).
      vm_compute. exact I.
    + apply (bool_decide_unpack (1 ∉ broken w_channels)).
      vm_compute. exact I.
  - apply Hgood.
    + apply (bool_decide_unpack (3 ∈ channels w_channels "gent-1")).
      vm_compute. exact I.
    + apply (bool_decide_unpack (3 ∉ broken w_channels)).
      vm_compute. exact I.
  - intros Hin. apply Hbad in Hin.
    + by apply elem_of_nil in Hin.
    + apply (bool_decide_unpack (2 ∈ broken w_channels)).
      vm_compute. exact I.
Defined.

(** ** The invariant of the store *)

Lemma dict_set_keys {V} (d : list (string * V)) k v k' :
  k' ∈ (dict_set d k v).*1 ↔ k' = k ∨ k' ∈ d.*1.
Proof.
  induction d as [|[k0 v0] d IH]; simpl.
  - rewrite elem_of_cons, elem_of_nil. tauto.
  - destruct (decide (k = k0)) as [->|Hne]; simpl; rewrite !elem_of_cons.
    + tauto.
    + rewrite IH. tauto.
Qed.

Lemma update_gig_frame gig_id date client_email fee w :
  gig_assignments (fst (update_gig gig_id date client_email fee w))
  = gig_assignments w
  ∧ (gigs (fst (update_gig gig_id date client_email fee w))).*1 = (gigs w).*1.
Proof.
  destruct (dict_get (gigs w) gig_id) as [g|] eqn:Hg.
  - destruct client_email as [e|].
    + destruct (_email_rx e) eqn:He.
      * rewrite (update_gig_ok _ _ _ _ _ _ Hg) by (intros ? [= <-]; done).
        simpl. by rewrite dict_mutate_keys.
      * rewrite (update_gig_invalid _ _ _ _ _ _ Hg He).
        destruct date; simpl; by rewrite ?dict_mutate_keys.
    + rewrite (update_gig_ok _ _ _ _ _ _ Hg) by done.
      simpl. by rewrite dict_mutate_keys.
  - by rewrite update_gig_not_found.
Qed.

Lemma remove_conn_frame user_id ws w :
  gig_assignments (fst (remove_conn user_id ws w)) = gig_assignments w
  ∧ gigs (fst (remove_conn user_id ws w)) = gigs w.
Proof.
  unfold remove_conn. rewrite bind_get.
  destruct (connections w !! user_id); [|done]. by case_decide.
Qed.

Lemma exec_store_inv req w : store_inv w → store_inv (exec req w).
Proof.
  intros [Hroster Hsets].
  destruct req as [gid date e fee| |gig_id|gig_id date e fee
                  |gig_id gent_id assigned| |gent_id|u ws|u ws|u p]; simpl.
  - destruct (_email_rx e) eqn:He.
    + rewrite create_gig_valid by done. split; simpl.
      * intros k s u [[<- <-]|[_ Hk]]%lookup_insert_Some Hu;
          [by apply elem_of_empty in Hu|by eapply Hroster].
      * intros k [->|Hk]%dict_set_keys.
        -- rewrite lookup_insert_eq. by eexists.
        -- rewrite lookup_insert. case_decide; [by eexists|by apply Hsets].
    + by rewrite create_gig_invalid.
  - done.
  - unfold ensure_gig. rewrite bind_get.
    by destruct (dict_get (gigs w) gig_id).
  - destruct (update_gig_frame gig_id date e fee w) as [Ha Hk].
    split; [by rewrite Ha|by rewrite Ha, Hk].
  - destruct (decide (gent_id ∈ GENTS)) as [Hin|Hout];
      [|by rewrite assign_gent_unknown_gent].
    destruct (dict_get (gigs w) gig_id) as [g|] eqn:Hg;
      [|by rewrite assign_gent_unknown_gig].
    rewrite (assign_gent_eq _ _ _ _ _ Hin Hg). split; simpl.
    + intros k s u [[<- <-]|[_ Hk]]%lookup_insert_Some Hu;
        [|by eapply Hroster].
      assert (u = gent_id ∨ u ∈ assigned_to w gig_id) as [->|Hold]
        by (destruct assigned; unfold toggled in Hu; set_solver); [done|].
      unfold assigned_to in Hold.
      destruct (gig_assignments w !! gig_id) as [s0|] eqn:Hs0;
        [by eapply Hroster|by apply elem_of_empty in Hold].
    + intros k Hk. rewrite lookup_insert.
      case_decide; [by eexists|by apply Hsets].
  - done.
  - unfold gigs_for_gent. by destruct (negb _).
  - done.
  - destruct (remove_conn_frame u ws w) as [Ha Hg].
    split; [by rewrite Ha|by rewrite Ha, Hg].
  - by rewrite send_to_user_eq.
Qed.

Lemma initial_store_inv brk : store_inv (initial brk).
Proof.
  split; simpl.
  - intros gid s u Hs. by rewrite lookup_empty in Hs.
  - intros gid Hin. by apply elem_of_nil in Hin.
Qed.

(** The invariant holds in every state the process reaches. *)
Lemma reachable_store_inv brk w : reachable brk w → store_inv w.
Proof.
  induction 1 as [|w req _ IH]; [apply initial_store_inv|].
  by apply exec_store_inv.
Qed.

(** C7. Every operation of the store, and every operation of the registry,
    preserves the invariant, whether it returns or raises: afterwards every
    assignee of every gig is a roster member and every stored gig has an
    assignment set.  The set of a gig exists, empty, in the state that
    [create_gig] returns in. *)
Theorem store_inv_preserved req w :
  store_inv w →
  store_inv (exec req w)
  ∧ (∀ gid date client_email fee w' g,
       req = CreateGig gid date client_email fee →
       create_gig gid date client_email fee w = (w', Return g) →
       exec req w = w'
       ∧ gid ∈ (gigs w').*1
       ∧ gig_assignments w' !! gid = Some ∅).
Proof.
  intros Hinv. split; [by apply exec_store_inv|].
  intros gid date e fee w' g -> Hrun. simpl. rewrite Hrun. simpl.
  split; [done|].
  destruct (_email_rx e) eqn:He.
  - rewrite create_gig_valid in Hrun by done. injection Hrun as <- <-.
    simpl. split; [|by rewrite lookup_insert_eq].
    apply dict_set_keys. by left.
  - rewrite create_gig_invalid in Hrun by done. discriminate.
Qed.

Lemma store_inv_preserved_witness :
  store_inv (exec (SetAssignment "g1" "gent-1" true) w_one)
  ∧ store_inv w_one
  ∧ gig_assignments w_one !! "g1" = Some ∅.
Proof.
  pose proof (initial_store_inv ∅) as H0.
  destruct (store_inv_preserved
              (CreateGig "g1" "2025-03-01" "client@example.com" 5000)
              (initial ∅) H0) as [H1 Hnew].
  destruct (Hnew "g1" "2025-03-01" "client@example.com" 5000%Z w_one gig1
              eq_refl)
    as (_ & _ & Hset); [vm_compute; reflexivity|].
  split_and!; [|exact H1|exact Hset].
  exact (proj1 (store_inv_preserved (SetAssignment "g1" "gent-1" true)
                  w_one H1)).
Defined.

(** * Further properties of the code *)

(** ** The e-mail pattern *)

Lemma no_at_count (l : list ascii) :
  Forall (λ a, a ≠ at_sign) l → count_occ ascii_dec l at_sign = 0.
Proof.
  induction 1 as [|a l Ha _ IH]; [done|].
  rewrite count_occ_cons_neq by done. exact IH.
Qed.

Lemma list_ascii_length s : length (list_ascii_of_string s) = String.length s.
Proof. induction s as [|a s IH]; simpl; [done|]. by rewrite IH. Qed.

(** X1. The pattern only looks at the ["@"] and the ["."]: an accepted
    address stays accepted when characters other than ["@"] are put in
    front of it or behind it, spaces and line breaks included. *)
Theorem email_rx_padding s t1 t2 :
  _email_rx s = true → no_at t1 → no_at t2 →
  _email_rx (t1 +:+ s +:+ t2) = true.
Proof.
  unfold _email_rx, no_at.
  rewrite !match_anchored_email, !RegexFacts.rx_match_spec, !email_body_spec.
  intros (l & d & r & Hs & [Hl Hl'] & Hd & [Hr Hr']) H1 H2.
  exists (list_ascii_of_string t1 ++ l), d, (r ++ list_ascii_of_string t2).
  split_and!; try tauto.
  - rewrite !list_ascii_app, Hs. rewrite <- !app_assoc. simpl.
    by rewrite <- app_assoc.
  - by destruct (list_ascii_of_string t1).
  - by apply Forall_app.
  - by destruct r.
  - by apply Forall_app.
Qed.

Lemma email_rx_padding_witness :
  _email_rx (" " +:+ "a@b.c" +:+ String newline "") = true.
Proof.
  apply (email_rx_padding "a@b.c" " " (String newline "")).
  - vm_compute. reflexivity.
  - repeat constructor. discriminate.
  - repeat constructor. discriminate.
Defined.

(** X2. An accepted address has exactly one ["@"] and at least five
    characters. *)
Theorem email_rx_one_at s :
  _email_rx s = true →
  count_occ ascii_dec (list_ascii_of_string s) at_sign = 1
  ∧ 5 ≤ String.length s.
Proof.
  unfold _email_rx.
  rewrite match_anchored_email, RegexFacts.rx_match_spec, email_body_spec.
  intros (l & d & r & Hs & [Hl Hl'] & [Hd Hd'] & [Hr Hr']).
  rewrite <- list_ascii_length, Hs. split.
  - rewrite count_occ_app, no_at_count by done.
    rewrite count_occ_cons_eq by done.
    rewrite count_occ_app, no_at_count by done.
    rewrite count_occ_cons_neq by discriminate.
    by rewrite no_at_count.
  - rewrite length_app. simpl. rewrite length_app. simpl.
    destruct l; [done|]. destruct d; [done|]. destruct r; [done|].
    simpl. lia.
Qed.

Lemma email_rx_one_at_witness :
  count_occ ascii_dec (list_ascii_of_string "client@example.com") at_sign = 1
  ∧ 5 ≤ String.length "client@example.com".
Proof. apply (email_rx_one_at "client@example.com"). vm_compute. reflexivity. Defined.

(** ** Sorted assignee lists *)

Lemma sorted_elem (s : gset string) x : x ∈ sorted s ↔ x ∈ s.
Proof.
  unfold sorted. rewrite (sort_by_perm String.leb (elements s)).
  apply elem_of_elements.
Qed.

Lemma sorted_NoDup (s : gset string) : NoDup (sorted s).
Proof.
  unfold sorted. rewrite (sort_by_perm String.leb (elements s)).
  apply NoDup_elements.
Qed.

Lemma StronglySorted_strict {A} (R : A → A → Prop) l :
  StronglySorted R l → NoDup l → StronglySorted (λ x y, R x y ∧ x ≠ y) l.
Proof.
  induction 1 as [|x l Hl IH Hx]; intros Hnd; [constructor|].
  apply NoDup_cons in Hnd as [Hx' Hnd]. constructor; [by apply IH|].
  apply Forall_forall. intros y Hy. split.
  - by eapply Forall_forall in Hx.
  - by intros ->.
Qed.

Lemma sorted_strict (s : gset string) : StronglySorted str_lt (sorted s).
Proof.
  eapply StronglySorted_weaken;
    [|apply StronglySorted_strict;
       [apply (sort_by_sorted String.leb leb_total leb_trans)
       |apply sorted_NoDup]].
  intros x y Hxy. by apply ltb_leb_ne.
Qed.

(** ** SetAssignment: what a successful call changes *)

Lemma assign_gent_success_inv gig_id gent_id assigned w w' r :
  assign_gent gig_id gent_id assigned w = (w', Return r) →
  gent_id ∈ GENTS ∧ ∃ g, dict_get (gigs w) gig_id = Some g.
Proof.
  intros H. destruct (decide (gent_id ∈ GENTS)) as [Hin|Hout].
  - split; [done|]. destruct (dict_get (gigs w) gig_id) as [g|] eqn:Hg;
      [by eexists|].
    rewrite assign_gent_unknown_gig in H by done. discriminate.
  - rewrite assign_gent_unknown_gent in H by done. discriminate.
Qed.

(** X3. A successful [assign_gent] touches one membership only: the gig
    records and the registry stay as they are, every other gig keeps its
    assignment set, every other worker keeps their membership in this gig,
    and the worker is a member afterwards exactly when [assigned] is true.
    The returned list holds exactly the assignees after the call, strictly
    ascending and so without duplicates. *)
Theorem assign_gent_effect gig_id gent_id assigned w w' r :
  assign_gent gig_id gent_id assigned w = (w', Return r) →
  r.1 = gig_id
  ∧ gigs w' = gigs w
  ∧ connections w' = connections w
  ∧ (∀ g', g' ≠ gig_id → assigned_to w' g' = assigned_to w g')
  ∧ (∀ u, u ≠ gent_id →
          (u ∈ assigned_to w' gig_id ↔ u ∈ assigned_to w gig_id))
  ∧ (gent_id ∈ assigned_to w' gig_id ↔ assigned = true)
  ∧ (∀ u, u ∈ r.2 ↔ u ∈ assigned_to w' gig_id)
  ∧ StronglySorted str_lt r.2
  ∧ NoDup r.2.
Proof.
  intros H.
  destruct (assign_gent_success_inv _ _ _ _ _ _ H) as (Hu & g & Hg).
  rewrite (assign_gent_eq _ _ _ _ _ Hu Hg) in H. injection H as <- <-.
  assert (Hset : assigned_to
                   (add_events
                      (if negb (Bool.eqb
                                  (bool_decide (gent_id ∈ assigned_to w gig_id))
                                  assigned)
                       then push_events w gent_id else [])
                      (set_gig_assignments
                         <[gig_id := toggled (assigned_to w gig_id) gent_id
                                       assigned]> w)) gig_id
                 = toggled (assigned_to w gig_id) gent_id assigned).
  { rewrite assigned_to_add_events, assigned_to_insert. by rewrite decide_True. }
  simpl. split_and!; try done.
  - intros g' Hne. rewrite assigned_to_add_events, assigned_to_insert.
    by rewrite decide_False.
  - intros u Hne. rewrite Hset. unfold toggled. destruct assigned; set_solver.
  - rewrite Hset. unfold toggled. destruct assigned; set_solver.
  - intros u. rewrite Hset. apply sorted_elem.
  - apply sorted_strict.
  - apply sorted_NoDup.
Qed.

Lemma assign_gent_effect_witness :
  ∃ w' r,
    assign_gent "g1" "gent-2" true w_assigned = (w', Return r)
    ∧ r.2 = ["gent-1"; "gent-2"]
    ∧ gigs w' = gigs w_assigned
    ∧ StronglySorted str_lt r.2.
Proof.
  eexists _, _. split; [vm_compute; reflexivity|].
  edestruct (assign_gent_effect "g1" "gent-2" true w_assigned)
    as (_ & Hg & _ & _ & _ & _ & _ & Hs & _).
  { vm_compute. reflexivity. }
  split_and!; [reflexivity|exact Hg|exact Hs].
Defined.

(** X4. A successful [assign_gent] notifies the worker of the call and nobody
    else: when the membership changes there is one call of [send_to_user],
    for that worker, and frames go only to channels registered for that
    worker; when it does not change nothing is added to the trace.  No
    task is created in either case. *)
Theorem assign_gent_notifies_only_gent gig_id gent_id assigned w w' r :
  assign_gent gig_id gent_id assigned w = (w', Return r) →
  ∃ new,
    added w w' new
    ∧ pushes new
      = (if Bool.eqb (bool_decide (gent_id ∈ assigned_to w gig_id)) assigned
         then [] else [(gent_id, gigs_changed)])
    ∧ (Bool.eqb (bool_decide (gent_id ∈ assigned_to w gig_id)) assigned = true
       → new = [])
    ∧ (∀ ws p, FrameSent ws p ∈ new →
               ws ∈ channels w gent_id ∧ ws ∉ broken w)
    ∧ (∀ u p, TaskCreated u p ∉ new).
Proof.
  intros H.
  destruct (assign_gent_success_inv _ _ _ _ _ _ H) as (Hu & g & Hg).
  rewrite (assign_gent_eq _ _ _ _ _ Hu Hg) in H. injection H as <- <-.
  eexists. split; [reflexivity|].
  destruct (Bool.eqb _ assigned); simpl.
  - split_and!; try done.
    + intros ws p Hin. by apply elem_of_nil in Hin.
    + intros u p Hin. by apply elem_of_nil in Hin.
  - split_and!; try done.
    + by rewrite pushes_frames.
    + intros ws p [Heq|Hin]%elem_of_cons; [discriminate|].
      apply list_elem_of_fmap in Hin as (ws' & [= -> ->] & Hin).
      apply list_elem_of_filter in Hin as [Hnb Hin].
      by apply elem_of_elements in Hin.
    + intros u p [Heq|Hin]%elem_of_cons; [discriminate|].
      apply list_elem_of_fmap in Hin as (ws' & Heq & _). discriminate.
Qed.

(** One channel for ["gent-1"], one for ["gent-2"]; ["gent-2"] is assigned
    to the gig, ["gent-1"] is about to be. *)
Lemma assign_gent_notifies_only_gent_witness :
  let w := exec (Register "gent-2" 8)
             (exec (Register "gent-1" 7)
                (exec (SetAssignment "g1" "gent-2" true) w_one)) in
  ∃ new,
    added w (exec (SetAssignment "g1" "gent-1" true) w) new
    ∧ pushes new = [("gent-1", gigs_changed)]
    ∧ FrameSent 8 gigs_changed ∉ new.
Proof.
  intros w.
  destruct (assign_gent_notifies_only_gent "g1" "gent-1" true w
              (exec (SetAssignment "g1" "gent-1" true) w)
              ("g1", ["gent-1"; "gent-2"]))
    as (new & Hadd & Hp & _ & Hfr & _).
  { vm_compute. reflexivity. }
  exists new. split_and!; [exact Hadd|exact Hp|].
  intros Hin. apply Hfr in Hin as [Hin _]. revert Hin.
  apply (bool_decide_unpack (8 ∉ channels w "gent-1")). vm_compute. exact I.
Defined.

(** ** ListGigs *)

(** X5. [list_gigs] reads only.  It returns one entry per stored gig, in
    the order of the dictionary; the entry of a gig carries its record and
    the assignees of that gig, all of them and no one else, strictly
    ascending.  [manager_gigs] returns the same. *)
Theorem list_gigs_spec w :
  ∃ out,
    list_gigs w = (w, Return out)
    ∧ manager_gigs w = (w, Return out)
    ∧ out.*1 = (gigs w).*2
    ∧ ∀ i gid g,
        gigs w !! i = Some (gid, g) →
        ∃ l, out !! i = Some (g, l)
             ∧ (∀ u, u ∈ l ↔ u ∈ assigned_to w gid)
             ∧ StronglySorted str_lt l.
Proof.
  eexists. split; [reflexivity|]. split; [reflexivity|]. split.
  - generalize (gigs w). intros d.
    induction d as [|[gid g] d IH]; [done|].
    change ((g :: (map (λ '(gid, g), (g, sorted (assigned_to w gid))) d).*1
             = g :: d.*2)). by f_equal.
  - intros i gid g Hi. exists (sorted (assigned_to w gid)). split_and!.
    + rewrite list_lookup_fmap, Hi. reflexivity.
    + intros u. apply sorted_elem.
    + apply sorted_strict.
Qed.

Lemma dict_set_fresh {V} (d : list (string * V)) k v :
  k ∉ d.*1 → dict_set d k v = d ++ [(k, v)].
Proof.
  induction d as [|[k0 v0] d IH]; simpl; [done|]. intros Hk.
  apply not_elem_of_cons in Hk as [Hne Hk].
  rewrite decide_False by done. by rewrite IH.
Qed.

Lemma list_gigs_out w :
  snd (list_gigs w)
  = Return (map (λ '(gid, g), (g, sorted (assigned_to w gid))) (gigs w)).
Proof. reflexivity. Qed.

(** X6. A gig created under an identifier that is not in use comes last
    in the listing, with no assignees, and the entries listed before are
    the ones of the listing before the call. *)
Theorem create_gig_listed_last gid date client_email fee w w' g out :
  gid ∉ (gigs w).*1 →
  create_gig gid date client_email fee w = (w', Return g) →
  list_gigs w = (w, Return out) →
  list_gigs w' = (w', Return (out ++ [(g, [])])).
Proof.
  intros Hfresh Hrun Hout.
  destruct (_email_rx client_email) eqn:He;
    [|rewrite create_gig_invalid in Hrun by done; discriminate].
  rewrite create_gig_valid in Hrun by done. injection Hrun as <- <-.
  injection Hout as <-. unfold list_gigs. rewrite bind_get. unfold ret.
  f_equal. f_equal. simpl. rewrite dict_set_fresh by done.
  rewrite map_app. simpl. f_equal.
  - apply map_ext_in. intros [k g0] Hin. f_equal. f_equal.
    unfold assigned_to. simpl. rewrite lookup_insert_ne; [done|].
    intros ->. apply Hfresh. apply list_elem_of_fmap. exists (k, g0).
    split; [done|]. by apply list_elem_of_In.
  - unfold assigned_to. simpl. rewrite lookup_insert_eq. simpl.
    unfold sorted. by rewrite elements_empty.
Qed.

Lemma create_gig_listed_last_witness :
  ∃ w',
    list_gigs w'
    = (w', Return [(gig1, ["gent-1"]);
                   (mkGig "g2" "2025-01-15" "x@y.z" 0, [])]).
Proof.
  eexists.
  apply (create_gig_listed_last "g2" "2025-01-15" "x@y.z" 0 w_assigned _ _
           [(gig1, ["gent-1"])]).
  - apply (bool_decide_unpack ("g2" ∉ (gigs w_assigned).*1)).
    vm_compute. exact I.
  - vm_compute. reflexivity.
  - vm_compute. reflexivity.
Defined.

(** ** UpdateGig: what a call changes *)

(** X7. A successful [update_gig] replaces exactly the fields that are
    present: the returned record has the identifier of the stored one and,
    field by field, the new value when one was given and the old value
    otherwise.  The record is what the store then holds under that
    identifier and what [ensure_gig] returns; the other gigs, the
    assignment sets, the registry and the trace are as before.  The call
    returns only for a gig that nobody is assigned to. *)
Theorem update_gig_patch gig_id date client_email fee w w' g' :
  update_gig gig_id date client_email fee w = (w', Return g') →
  ∃ g,
    dict_get (gigs w) gig_id = Some g
    ∧ g_id g' = g_id g
    ∧ g_date g' = default (g_date g) date
    ∧ g_client_email g' = default (g_client_email g) client_email
    ∧ g_fee g' = default (g_fee g) fee
    ∧ dict_get (gigs w') gig_id = Some g'
    ∧ ensure_gig gig_id w' = (w', Return g')
    ∧ (∀ k, k ≠ gig_id → dict_get (gigs w') k = dict_get (gigs w) k)
    ∧ (gigs w').*1 = (gigs w).*1
    ∧ gig_assignments w' = gig_assignments w
    ∧ connections w' = connections w
    ∧ trace w' = trace w
    ∧ assigned_to w gig_id = ∅.
Proof.
  intros H.
  destruct (update_gig_success_inv _ _ _ _ _ _ _ H) as (g & Hg & He & Hs).
  rewrite (update_gig_ok _ _ _ _ _ _ Hg He), decide_True in H by done.
  injection H as <- <-. exists g.
  assert (Hget : dict_get
                   (dict_mutate (gigs w) gig_id (patch date client_email fee))
                   gig_id = Some (patch date client_email fee g)).
  { rewrite dict_get_mutate, decide_True, Hg by done. done. }
  split_and!; try done.
  - by destruct date, client_email, fee.
  - by destruct date, client_email, fee.
  - by destruct date, client_email, fee.
  - by destruct date, client_email, fee.
  - unfold ensure_gig. rewrite bind_get. simpl. by rewrite Hget.
  - intros k Hk. simpl. by rewrite dict_get_mutate, decide_False.
  - simpl. apply dict_mutate_keys.
Qed.

Lemma update_gig_patch_witness :
  ∃ w',
    update_gig "g1" None None (Some 7000%Z) w_one
    = (w', Return (mkGig "g1" "2025-03-01" "client@example.com" 7000))
    ∧ gig_assignments w' = gig_assignments w_one
    ∧ assigned_to w_one "g1" = ∅.
Proof.
  eexists. split; [vm_compute; reflexivity|].
  edestruct (update_gig_patch "g1" None None (Some 7000%Z) w_one)
    as (g & _ & _ & _ & _ & _ & _ & _ & _ & _ & Ha & _ & _ & Hs).
  { vm_compute. reflexivity. }
  split; [exact Ha|exact Hs].
Defined.

(** X8. A failed [update_gig] raises one of three exceptions, and adds
    nothing to the trace whichever it is; assignment sets, registry, all
    other gigs and the identifier of the gig stay as they were.  The
    not-found error leaves the whole state as it was.  The validation
    error leaves address and fee of the gig as they were, and the whole
    state when the request has no date.  The third is the error of
    [asyncio.create_task]: it is raised exactly when the gig is stored,
    the address is valid or absent and somebody is assigned to the gig,
    and then every field of the request has been stored. *)
Theorem update_gig_failure gig_id date client_email fee w w' e :
  update_gig gig_id date client_email fee w = (w', Raise e) →
  (e = NotFoundError ∨ e = ValidationError ∨ e = NoRunningLoop)
  ∧ trace w' = trace w
  ∧ gig_assignments w' = gig_assignments w
  ∧ connections w' = connections w
  ∧ (∀ k, k ≠ gig_id → dict_get (gigs w') k = dict_get (gigs w) k)
  ∧ (∀ g, dict_get (gigs w) gig_id = Some g →
          ∃ g', dict_get (gigs w') gig_id = Some g'
                ∧ g_id g' = g_id g
                ∧ (e = ValidationError →
                   g_client_email g' = g_client_email g
                   ∧ g_fee g' = g_fee g)
                ∧ (e = NoRunningLoop → g' = patch date client_email fee g))
  ∧ (e = NotFoundError → w' = w)
  ∧ (e = ValidationError → date = None → w' = w)
  ∧ (e = NoRunningLoop ↔
     (∃ g, dict_get (gigs w) gig_id = Some g)
     ∧ (∀ a, client_email = Some a → _email_rx a = true)
     ∧ assigned_to w gig_id ≠ ∅).
Proof.
  intros H. destruct (dict_get (gigs w) gig_id) as [g|] eqn:Hg.
  - assert (Hvalid : (∀ a, client_email = Some a → _email_rx a = true) →
             e = NoRunningLoop
             ∧ assigned_to w gig_id ≠ ∅
             ∧ w' = set_gigs
                      (λ d, dict_mutate d gig_id (patch date client_email fee))
                      w).
    { intros He. rewrite (update_gig_ok _ _ _ _ _ _ Hg He) in H.
      destruct (decide (assigned_to w gig_id = ∅)); [discriminate|].
      by injection H as <- <-. }
    assert (Hok : (∀ a, client_email = Some a → _email_rx a = true) →
             (e = NotFoundError ∨ e = ValidationError ∨ e = NoRunningLoop)
             ∧ trace w' = trace w
             ∧ gig_assignments w' = gig_assignments w
             ∧ connections w' = connections w
             ∧ (∀ k, k ≠ gig_id → dict_get (gigs w') k = dict_get (gigs w) k)
             ∧ (∀ g0, Some g = Some g0 →
                  ∃ g', dict_get (gigs w') gig_id = Some g'
                        ∧ g_id g' = g_id g0
                        ∧ (e = ValidationError →
                           g_client_email g' = g_client_email g0
                           ∧ g_fee g' = g_fee g0)
                        ∧ (e = NoRunningLoop →
                           g' = patch date client_email fee g0))
             ∧ (e = NotFoundError → w' = w)
             ∧ (e = ValidationError → date = None → w' = w)
             ∧ (e = NoRunningLoop ↔
                (∃ g0, Some g = Some g0)
                ∧ (∀ a, client_email = Some a → _email_rx a = true)
                ∧ assigned_to w gig_id ≠ ∅)).
    { intros He. destruct (Hvalid He) as (-> & Hs & ->). simpl.
      split_and!; try done; try (by auto).
      - intros k Hk. by rewrite dict_get_mutate, decide_False.
      - intros g0 [= <-]. exists (patch date client_email fee g).
        split_and!; try done.
        + by rewrite dict_get_mutate, decide_True, Hg.
        + by destruct date, client_email, fee.
      - split; [|done]. intros _. split_and!; [by eexists|done|done]. }
    destruct client_email as [a|]; [|by apply Hok].
    destruct (_email_rx a) eqn:Ha; [apply Hok; by intros ? [= <-]|].
    rewrite (update_gig_invalid _ _ _ _ _ _ Hg Ha) in H.
    injection H as <- <-.
    assert (Hnot : ValidationError = NoRunningLoop ↔
                   (∃ g0, Some g = Some g0)
                   ∧ (∀ a0, Some a = Some a0 → _email_rx a0 = true)
                   ∧ assigned_to w gig_id ≠ ∅).
    { split; [discriminate|]. intros (_ & He & _).
      specialize (He a eq_refl). congruence. }
    destruct date as [d|]; simpl.
    + split_and!; try done; try (by auto).
      * intros k Hk. by rewrite dict_get_mutate, decide_False.
      * intros g0 [= <-]. exists (set_date d g). split_and!; try done.
        by rewrite dict_get_mutate, decide_True, Hg.
    + split_and!; try done; try (by auto).
      intros g0 [= <-]. exists g. split_and!; done.
  - rewrite update_gig_not_found in H by done. injection H as <- <-.
    split_and!; try done; try (by auto).
    split; [discriminate|]. by intros ([g Hg'] & _).
Qed.

Lemma update_gig_failure_witness :
  ∃ w' e,
    update_gig "g1" None (Some "bad") (Some 1%Z) w_assigned = (w', Raise e)
    ∧ w' = w_assigned
    ∧ trace w' = trace w_assigned.
Proof.
  eexists _, _. split; [vm_compute; reflexivity|].
  edestruct (update_gig_failure "g1" None (Some "bad") (Some 1%Z) w_assigned)
    as (_ & Htr & _ & _ & _ & _ & _ & Hsame & _).
  { vm_compute. reflexivity. }
  split; [exact (Hsame eq_refl eq_refl)|exact Htr].
Defined.

(** ** Invariants of the gig table and of the registry *)

Lemma dict_set_keys_in {V} (d : list (string * V)) k v :
  k ∈ d.*1 → (dict_set d k v).*1 = d.*1.
Proof.
  induction d as [|[k0 v0] d IH]; simpl; intros Hk.
  - by apply elem_of_nil in Hk.
  - destruct (decide (k = k0)) as [->|Hne]; [done|]. simpl. f_equal.
    apply IH. apply elem_of_cons in Hk as [?|?]; done.
Qed.

Lemma dict_set_NoDup {V} (d : list (string * V)) k v :
  NoDup d.*1 → NoDup (dict_set d k v).*1.
Proof.
  intros Hnd. destruct (decide (k ∈ d.*1)) as [Hin|Hout].
  - by rewrite dict_set_keys_in.
  - rewrite dict_set_fresh, fmap_app by done. simpl.
    apply NoDup_app. split_and!; [done| |apply NoDup_singleton].
    intros x Hx ->%list_elem_of_singleton. done.
Qed.

Lemma dict_set_elem {V} (d : list (string * V)) k v k' v' :
  (k', v') ∈ dict_set d k v → (k' = k ∧ v' = v) ∨ (k', v') ∈ d.
Proof.
  induction d as [|[k0 v0] d IH]; simpl.
  - intros [= -> ->]%list_elem_of_singleton. by left.
  - destruct (decide (k = k0)) as [->|Hne].
    + intros [[= -> ->]|Hin]%elem_of_cons; [by left|].
      right. by apply list_elem_of_further.
    + intros [[= -> ->]|Hin]%elem_of_cons.
      * right. apply list_elem_of_here.
      * destruct (IH Hin) as [?|?]; [by left|].
        right. by apply list_elem_of_further.
Qed.

Lemma dict_mutate_elem {V} (d : list (string * V)) k f k' v' :
  (k', v') ∈ dict_mutate d k f →
  (k', v') ∈ d ∨ ∃ v0, (k', v0) ∈ d ∧ v' = f v0.
Proof.
  induction d as [|[k0 v0] d IH]; simpl.
  - intros Hin. by apply elem_of_nil in Hin.
  - destruct (decide (k = k0)) as [->|Hne].
    + intros [[= -> ->]|Hin]%elem_of_cons.
      * right. exists v0. split; [apply list_elem_of_here|done].
      * left. by apply list_elem_of_further.
    + intros [[= -> ->]|Hin]%elem_of_cons.
      * left. apply list_elem_of_here.
      * destruct (IH Hin) as [?|(v1 & ? & ?)].
        -- left. by apply list_elem_of_further.
        -- right. exists v1. split; [by apply list_elem_of_further|done].
Qed.

(** What a request can do to the gig table: nothing, store a record under
    its own identifier, or change fields other than the identifier of one
    record. *)
Lemma exec_gigs_cases req w :
  gigs (exec req w) = gigs w
  ∨ (∃ gid date e fee,
       gigs (exec req w) = dict_set (gigs w) gid (mkGig gid date e fee))
  ∨ (∃ gid f, (∀ g, g_id (f g) = g_id g)
              ∧ gigs (exec req w) = dict_mutate (gigs w) gid f).
Proof.
  destruct req as [gid date e fee| |gig_id|gig_id date e fee
                  |gig_id gent_id assigned| |gent_id|u ws|u ws|u p]; simpl.
  - destruct (_email_rx e) eqn:He.
    + rewrite create_gig_valid by done. right. left. by eexists _, _, _, _.
    + rewrite create_gig_invalid by done. by left.
  - by left.
  - left. unfold ensure_gig. rewrite bind_get.
    by destruct (dict_get (gigs w) gig_id).
  - destruct (dict_get (gigs w) gig_id) as [g|] eqn:Hg;
      [|rewrite update_gig_not_found by done; by left].
    assert (Hok : (∀ a, e = Some a → _email_rx a = true) →
                  ∃ gid f, (∀ g, g_id (f g) = g_id g)
                           ∧ gigs (fst (update_gig gig_id date e fee w))
                             = dict_mutate (gigs w) gid f).
    { intros He. rewrite (update_gig_ok _ _ _ _ _ _ Hg He).
      exists gig_id, (patch date e fee). split; [|done].
      intros g0. by destruct date, e, fee. }
    destruct e as [a|]; [|right; right; by apply Hok].
    destruct (_email_rx a) eqn:Ha;
      [right; right; apply Hok; by intros ? [= <-]|].
    rewrite (update_gig_invalid _ _ _ _ _ _ Hg Ha).
    destruct date as [d|]; [|by left].
    right. right. exists gig_id, (set_date d). done.
  - left. destruct (decide (gent_id ∈ GENTS)) as [Hin|Hout];
      [|by rewrite assign_gent_unknown_gent].
    destruct (dict_get (gigs w) gig_id) as [g|] eqn:Hg;
      [|by rewrite assign_gent_unknown_gig].
    by rewrite (assign_gent_eq _ _ _ _ _ Hin Hg).
  - by left.
  - left. unfold gigs_for_gent. by destruct (negb _).
  - by left.
  - left. apply remove_conn_frame.
  - left. by rewrite send_to_user_eq.
Qed.

Lemma exec_gigs_wf req w : gigs_wf w → gigs_wf (exec req w).
Proof.
  intros [Hnd Hid]. unfold gigs_wf.
  destruct (exec_gigs_cases req w)
    as [->|[(gid & date & e & fee & ->)|(gid & f & Hf & ->)]].
  - done.
  - split; [by apply dict_set_NoDup|].
    intros k g [[-> ->]|Hin]%dict_set_elem; [done|by apply Hid].
  - split; [by rewrite dict_mutate_keys|].
    intros k g [Hin|(g0 & Hin & ->)]%dict_mutate_elem; [by apply Hid|].
    rewrite Hf. by apply Hid.
Qed.

Lemma initial_gigs_wf brk : gigs_wf (initial brk).
Proof.
  split; simpl; [constructor|]. intros gid g Hin. by apply elem_of_nil in Hin.
Qed.

Lemma reachable_gigs_wf brk w : reachable brk w → gigs_wf w.
Proof.
  induction 1 as [|w req _ IH]; [apply initial_gigs_wf|by apply exec_gigs_wf].
Qed.

Lemma w_two_reachable : reachable ∅ w_two.
Proof. unfold w_two. repeat apply reach_step. apply reach_init. Qed.

Lemma w_assigned_reachable : reachable ∅ w_assigned.
Proof. unfold w_assigned, w_one. repeat apply reach_step. apply reach_init. Qed.

(** X9. The identifier of a gig is fixed: if the keys of [gigs] are
    distinct and every record carries its key as ["id"], the same holds
    after any sequence of requests, whichever of them return or raise. *)
Theorem gigs_wf_run (reqs : list Request) w :
  gigs_wf w → gigs_wf (foldl (λ w' req, exec req w') w reqs).
Proof.
  revert w. induction reqs as [|req reqs IH]; intros w Hwf; simpl; [done|].
  by apply IH, exec_gigs_wf.
Qed.

Lemma gigs_wf_run_witness :
  gigs_wf (foldl (λ w' req, exec req w') (initial ∅)
             [CreateGig "g1" "2025-03-01" "client@example.com" 5000;
              UpdateGig "g1" (Some "2030-01-01") (Some "bad") None;
              CreateGig "g1" "2025-05-05" "again@example.com" 1]).
Proof. apply gigs_wf_run, initial_gigs_wf. Defined.

(** X10. No request removes a gig: an identifier stored before a request is
    stored after it, and the number of gigs does not go down. *)
Theorem gigs_never_deleted req w :
  (∀ gid, gid ∈ (gigs w).*1 → gid ∈ (gigs (exec req w)).*1)
  ∧ length (gigs w) ≤ length (gigs (exec req w)).
Proof.
  destruct (exec_gigs_cases req w)
    as [->|[(gid & date & e & fee & ->)|(gid & f & Hf & ->)]].
  - done.
  - split.
    + intros k Hk. apply dict_set_keys. by right.
    + rewrite <- (length_fmap fst (gigs w)), <- (length_fmap fst (dict_set _ _ _)).
      destruct (decide (gid ∈ (gigs w).*1)) as [Hin|Hout].
      * by rewrite dict_set_keys_in.
      * rewrite dict_set_fresh, fmap_app, length_app by done. lia.
  - split.
    + intros k Hk. by rewrite dict_mutate_keys.
    + rewrite <- (length_fmap fst (gigs w)), <- (length_fmap fst (dict_mutate _ _ _)).
      by rewrite dict_mutate_keys.
Qed.

Lemma add_conn_eq user_id ws w :
  add_conn user_id ws w
  = (set_connections
       (λ c, <[user_id := {[ws]} ∪ default ∅ (c !! user_id)]> c) w,
     Return tt).
Proof. reflexivity. Qed.

Lemma remove_conn_eq user_id ws w :
  remove_conn user_id ws w
  = (match connections w !! user_id with
     | Some s =>
         if decide (s ∖ {[ws]} = ∅)
         then set_connections (delete user_id) w
         else set_connections <[user_id := s ∖ {[ws]}]> w
     | None => w
     end, Return tt).
Proof.
  unfold remove_conn. rewrite bind_get.
  destruct (connections w !! user_id); [|done]. by case_decide.
Qed.

Lemma exec_connections req w :
  connections (exec req w) = connections w
  ∨ (∃ u ws, req = Register u ws)
  ∨ (∃ u ws, req = Unregister u ws).
Proof.
  destruct req as [gid date e fee| |gig_id|gig_id date e fee
                  |gig_id gent_id assigned| |gent_id|u ws|u ws|u p]; simpl;
    try (by left).
  - left. unfold create_gig. destruct (negb _); [done|].
    rewrite !bind_modify. unfold getitem. rewrite bind_get. simpl.
    by destruct (dict_get _ gid).
  - left. unfold ensure_gig. rewrite bind_get.
    by destruct (dict_get (gigs w) gig_id).
  - left. destruct (dict_get (gigs w) gig_id) as [g|] eqn:Hg;
      [|by rewrite update_gig_not_found].
    destruct e as [a|]; [destruct (_email_rx a) eqn:Ha|].
    + by rewrite (update_gig_ok _ _ _ _ _ _ Hg) by (intros ? [= <-]; done).
    + rewrite (update_gig_invalid _ _ _ _ _ _ Hg Ha). by destruct date.
    + by rewrite (update_gig_ok _ _ _ _ _ _ Hg).
  - left. destruct (decide (gent_id ∈ GENTS)) as [Hin|Hout];
      [|by rewrite assign_gent_unknown_gent].
    destruct (dict_get (gigs w) gig_id) as [g|] eqn:Hg;
      [|by rewrite assign_gent_unknown_gig].
    by rewrite (assign_gent_eq _ _ _ _ _ Hin Hg).
  - left. unfold gigs_for_gent. by destruct (negb _).
  - right. left. by eexists _, _.
  - right. right. by eexists _, _.
  - left. by rewrite send_to_user_eq.
Qed.

Lemma exec_conn_inv req w : conn_inv w → conn_inv (exec req w).
Proof.
  intros Hinv.
  destruct (exec_connections req w) as [Heq|[(u & ws & ->)|(u & ws & ->)]].
  - unfold conn_inv. by rewrite Heq.
  - intros u' s. simpl. intros [[<- <-]|[_ Hs]]%lookup_insert_Some;
      [set_solver|by eapply Hinv].
  - simpl. rewrite remove_conn_eq. simpl.
    destruct (connections w !! u) as [s0|] eqn:Hs0; [|done].
    case_decide as Hempty; intros u' s; simpl.
    + intros [_ Hs]%lookup_delete_Some. by eapply Hinv.
    + intros [[<- <-]|[_ Hs]]%lookup_insert_Some; [done|by eapply Hinv].
Qed.

(** X11. The registry holds no empty channel set: if no user is registered
    with an empty set before a request, none is after it; unregistering the
    last channel of a user removes the user's entry. *)
Theorem conn_inv_preserved req w :
  conn_inv w →
  conn_inv (exec req w)
  ∧ ∀ u ws, connections w !! u = Some {[ws]} →
            connections (exec (Unregister u ws) w) !! u = None.
Proof.
  intros Hinv. split; [by apply exec_conn_inv|].
  intros u ws Hs. simpl. rewrite remove_conn_eq, Hs. simpl.
  rewrite decide_True by set_solver. simpl. apply lookup_delete_eq.
Qed.

Lemma initial_conn_inv brk : conn_inv (initial brk).
Proof. intros u s Hs. simpl in Hs. by rewrite lookup_empty in Hs. Qed.

Lemma conn_inv_preserved_witness :
  conn_inv (exec (Unregister "gent-1" 7)
              (exec (Register "gent-1" 7) (initial ∅)))
  ∧ connections (exec (Unregister "gent-1" 7)
                   (exec (Register "gent-1" 7) (initial ∅))) !! "gent-1"
    = None.
Proof.
  destruct (conn_inv_preserved (Unregister "gent-1" 7)
              (exec (Register "gent-1" 7) (initial ∅))) as [H1 H2].
  - apply exec_conn_inv, initial_conn_inv.
  - split; [exact H1|]. apply H2. vm_compute. reflexivity.
Defined.

(** ** GetGig *)

Lemma dict_get_key {V} (d : list (string * V)) k :
  k ∈ d.*1 ↔ ∃ v, dict_get d k = Some v.
Proof.
  induction d as [|[k0 v0] d IH]; simpl.
  - split; [by intros ?%elem_of_nil|by intros [? ?]].
  - rewrite elem_of_cons, IH. destruct (decide (k = k0)) as [->|Hne].
    + split; [by eexists|by left].
    + split; [by intros [?|?]|by right].
Qed.

(** X12. [ensure_gig] raises the not-found error exactly for the
    identifiers that are not keys of [gigs].  For a key it returns the
    stored record and leaves the state alone; when the table is well
    formed the record carries the requested identifier. *)
Theorem ensure_gig_spec gig_id w :
  (gig_id ∉ (gigs w).*1 ↔ ensure_gig gig_id w = (w, Raise NotFoundError))
  ∧ (gig_id ∈ (gigs w).*1 →
     ∃ g, ensure_gig gig_id w = (w, Return g)
          ∧ (gig_id, g) ∈ gigs w
          ∧ (gigs_wf w → g_id g = gig_id)).
Proof.
  unfold ensure_gig. rewrite bind_get.
  destruct (dict_get (gigs w) gig_id) as [g|] eqn:Hg.
  - assert (Hin : gig_id ∈ (gigs w).*1) by (apply dict_get_key; eauto).
    split; [split; [done|discriminate]|].
    intros _. exists g. split_and!; [done|by apply dict_get_elem_of|].
    intros [_ Hid]. by apply Hid, dict_get_elem_of.
  - assert (Hout : gig_id ∉ (gigs w).*1).
    { intros [g Hg']%dict_get_key. congruence. }
    split; [done|]. intros Hin. done.
Qed.

Lemma ensure_gig_spec_witness :
  (∃ g, ensure_gig "g1" w_assigned = (w_assigned, Return g)
        ∧ g_id g = "g1")
  ∧ ensure_gig "g2" w_assigned = (w_assigned, Raise NotFoundError).
Proof.
  destruct (ensure_gig_spec "g1" w_assigned) as [_ Hfound].
  destruct (ensure_gig_spec "g2" w_assigned) as [[Hmiss _] _].
  split.
  - destruct Hfound as (g & Hrun & _ & Hid).
    + apply (bool_decide_unpack ("g1" ∈ (gigs w_assigned).*1)).
      vm_compute. exact I.
    + exists g. split; [exact Hrun|].
      apply Hid, (reachable_gigs_wf ∅), w_assigned_reachable.
  - apply Hmiss.
    apply (bool_decide_unpack ("g2" ∉ (gigs w_assigned).*1)).
    vm_compute. exact I.
Defined.

(** ** ListGigsForWorker on a well-formed table *)

Lemma gigs_of_ids w gent_id :
  gigs_wf w → NoDup (g_id <$> gigs_of w gent_id).
Proof.
  intros [Hnd Hid]. unfold gigs_of. revert Hnd Hid.
  generalize (gigs w). intros d.
  induction d as [|[k g] d IH]; intros Hnd Hid; simpl; [constructor|].
  apply NoDup_cons in Hnd as [Hk Hnd].
  assert (IH' : NoDup
                  (g_id <$>
                   omap (λ '(gid, g0),
                           if bool_decide (gent_id ∈ assigned_to w gid)
                           then Some g0 else None) d)).
  { apply IH; [done|]. intros k' g' Hin. apply Hid. by right. }
  destruct (bool_decide (gent_id ∈ assigned_to w k)); [|done].
  simpl. constructor; [|done].
  intros (g' & Heq & Hin)%list_elem_of_fmap.
  apply list_elem_of_omap in Hin as ([k' g''] & Hin & Hsome).
  destruct (bool_decide _); [|done]. injection Hsome as ->.
  assert (g_id g' = k') by (apply Hid; by right).
  assert (g_id g = k) by (apply Hid; left).
  apply Hk. apply list_elem_of_fmap. exists (k', g'). split; [|done].
  simpl. congruence.
Qed.

Lemma StronglySorted_strict_by {A B} (f : A → B) (R : A → A → Prop) l :
  StronglySorted R l → NoDup (f <$> l) →
  StronglySorted (λ x y, R x y ∧ f x ≠ f y) l.
Proof.
  induction 1 as [|x l Hl IH Hx]; intros Hnd; [constructor|].
  rewrite fmap_cons in Hnd. apply NoDup_cons in Hnd as [Hx' Hnd].
  constructor; [by apply IH|].
  apply Forall_forall. intros y Hy. split.
  - by eapply Forall_forall in Hx.
  - intros Heq. apply Hx'. rewrite Heq. apply list_elem_of_fmap. eauto.
Qed.

(** X13. On a well-formed table the gigs [gigs_for_gent] returns have
    pairwise different identifiers, and the list is strictly ascending:
    from one entry to any later one the date grows, or the date is the same
    and the identifier grows. *)
Theorem gigs_for_gent_strict gent_id w l :
  gigs_wf w →
  gigs_for_gent gent_id w = (w, Return l) →
  NoDup (g_id <$> l)
  ∧ StronglySorted
      (λ x y, str_lt (g_date x) (g_date y)
              ∨ (g_date x = g_date y ∧ str_lt (g_id x) (g_id y))) l.
Proof.
  intros Hwf Hrun. unfold gigs_for_gent in Hrun.
  destruct (negb _); [discriminate|]. rewrite bind_get in Hrun.
  fold (gigs_of w gent_id) in Hrun. injection Hrun as <-.
  assert (Hnd : NoDup (g_id <$> sort_by gig_leb (gigs_of w gent_id))).
  { rewrite (sort_by_perm gig_leb (gigs_of w gent_id)).
    by apply gigs_of_ids. }
  split; [done|].
  eapply StronglySorted_weaken;
    [|apply (StronglySorted_strict_by g_id);
       [apply (sort_by_sorted gig_leb)|exact Hnd]].
  - intros x y [Hle Hne]. apply gig_leb_date_id in Hle as [Hlt|[Hd Hi]].
    + by left.
    + right. split; [done|]. by apply ltb_leb_ne.
  - intros x y. apply tuple_leb_total.
  - intros x y z. apply tuple_leb_trans.
Qed.

Lemma gigs_for_gent_strict_witness :
  ∃ l, gigs_for_gent "gent-1" w_two = (w_two, Return l)
       ∧ NoDup (g_id <$> l).
Proof.
  eexists. split; [vm_compute; reflexivity|].
  eapply (proj1 (gigs_for_gent_strict "gent-1" w_two _
                   (reachable_gigs_wf ∅ _ w_two_reachable) _)).
  Unshelve. vm_compute. reflexivity.
Defined.

(** X14. Assigning and listing agree.  After a successful [assign_gent] on
    a well-formed table, [gigs_for_gent] for that worker contains the gig
    exactly when the call asked for it to be assigned, and contains any
    other gig exactly when it was listed for the worker before. *)
Theorem assign_gent_then_listed gig_id gent_id assigned w w' r :
  gigs_wf w →
  assign_gent gig_id gent_id assigned w = (w', Return r) →
  ∃ g l,
    dict_get (gigs w) gig_id = Some g
    ∧ gigs_for_gent gent_id w' = (w', Return l)
    ∧ (g ∈ l ↔ assigned = true)
    ∧ ∀ g', g_id g' ≠ gig_id → (g' ∈ l ↔ g' ∈ gigs_of w gent_id).
Proof.
  intros [Hnd Hid] H.
  destruct (assign_gent_success_inv _ _ _ _ _ _ H) as (Hu & g & Hg).
  rewrite (assign_gent_eq _ _ _ _ _ Hu Hg) in H. injection H as <- _.
  set (w' := add_events _ _).
  assert (Hsame : ∀ k, k ≠ gig_id → assigned_to w' k = assigned_to w k).
  { intros k Hk. unfold w'.
    rewrite assigned_to_add_events, assigned_to_insert. by rewrite decide_False. }
  assert (Hthis : gent_id ∈ assigned_to w' gig_id ↔ assigned = true).
  { unfold w'. rewrite assigned_to_add_events, assigned_to_insert.
    rewrite decide_True by done.
    pose proof (toggled_elem (assigned_to w gig_id) gent_id assigned) as Ht.
    destruct assigned.
    - apply bool_decide_eq_true in Ht. tauto.
    - apply bool_decide_eq_false in Ht. split; [done|discriminate]. }
  exists g, (sort_by gig_leb (gigs_of w' gent_id)). split_and!.
  - done.
  - unfold gigs_for_gent. by rewrite bool_decide_true.
  - rewrite (sort_by_perm gig_leb (gigs_of w' gent_id)), gigs_of_elem.
    rewrite <- Hthis. split.
    + intros (k & Hin & Hk).
      assert (k = gig_id) as ->; [|done].
      rewrite <- (Hid k g Hin). by apply Hid, dict_get_elem_of.
    + intros Hk. exists gig_id. split; [by apply dict_get_elem_of|done].
  - intros g' Hne.
    rewrite (sort_by_perm gig_leb (gigs_of w' gent_id)), !gigs_of_elem.
    split; intros (k & Hin & Hk); exists k; (split; [done|]).
    + rewrite <- Hsame; [done|]. intros ->. by apply Hne, Hid.
    + rewrite Hsame; [done|]. intros ->. by apply Hne, Hid.
Qed.

Lemma assign_gent_then_listed_witness :
  ∃ w' l,
    gigs_for_gent "gent-1" w' = (w', Return l)
    ∧ w' = exec (SetAssignment "g0" "gent-1" false) w_two
    ∧ mkGig "g0" "2025-02-01" "b@example.com" 2 ∉ l.
Proof.
  edestruct (assign_gent_then_listed "g0" "gent-1" false w_two)
    as (g & l & Hg & Hrun & Hiff & _).
  - apply (reachable_gigs_wf ∅), w_two_reachable.
  - vm_compute. reflexivity.
  - eexists _, l. split; [exact Hrun|]. split; [reflexivity|].
    vm_compute in Hg. injection Hg as <-. intros Hin.
    apply Hiff in Hin. discriminate.
Defined.

(** ** The connection registry *)

Lemma world_eq_connections w c :
  c = connections w → set_connections (λ _, c) w = w.
Proof. intros ->. by destruct w. Qed.

(** X15. [add_conn] adds the channel to the user's set and nothing else:
    the user's channels are the old ones and the new one, every other
    user's entry is as before, and registering the same channel again
    changes nothing. *)
Theorem add_conn_spec user_id ws w :
  ∃ w',
    add_conn user_id ws w = (w', Return tt)
    ∧ channels w' user_id = {[ws]} ∪ channels w user_id
    ∧ (∀ u, u ≠ user_id → connections w' !! u = connections w !! u)
    ∧ gigs w' = gigs w
    ∧ gig_assignments w' = gig_assignments w
    ∧ trace w' = trace w
    ∧ add_conn user_id ws w' = (w', Return tt).
Proof.
  eexists. split; [apply add_conn_eq|]. split_and!; try done.
  - unfold channels. simpl. by rewrite lookup_insert_eq.
  - intros u Hu. simpl. by rewrite lookup_insert_ne.
  - rewrite add_conn_eq. f_equal. unfold set_connections. simpl. f_equal.
    rewrite lookup_insert_eq, insert_insert_eq. simpl. f_equal. set_solver.
Qed.

Lemma remove_conn_absent user_id ws w :
  ws ∉ channels w user_id → conn_inv w →
  remove_conn user_id ws w = (w, Return tt).
Proof.
  intros Hws Hinv. rewrite remove_conn_eq. f_equal. unfold channels in Hws.
  destruct (connections w !! user_id) as [s|] eqn:Hs; [|done].
  simpl in Hws. assert (s ∖ {[ws]} = s) as -> by set_solver.
  rewrite decide_False by by eapply Hinv.
  rewrite <- (world_eq_connections w (connections w)) at 2 by done.
  unfold set_connections. f_equal. by apply insert_id.
Qed.

Lemma add_remove_conn user_id ws w :
  ws ∉ channels w user_id → conn_inv w →
  remove_conn user_id ws (fst (add_conn user_id ws w)) = (w, Return tt).
Proof.
  intros Hws Hinv. rewrite add_conn_eq, remove_conn_eq. simpl.
  rewrite lookup_insert_eq. f_equal.
  fold (channels w user_id).
  assert (({[ws]} ∪ channels w user_id) ∖ {[ws]} = channels w user_id) as ->
    by set_solver.
  unfold channels in *.
  destruct (connections w !! user_id) as [s|] eqn:Hs; simpl in *.
  - rewrite decide_False by by eapply Hinv.
    rewrite <- (world_eq_connections w (connections w)) at 2 by done.
    unfold set_connections. simpl. f_equal.
    rewrite insert_insert_eq. by apply insert_id.
  - rewrite decide_True by done.
    rewrite <- (world_eq_connections w (connections w)) at 2 by done.
    unfold set_connections. simpl. f_equal.
    rewrite delete_insert_eq. by apply delete_id.
Qed.

(** X16. Registering a channel and unregistering it again gives back the
    state from before, the user's entry included, provided the channel
    was not registered for the user and the registry holds no empty set;
    under the same conditions unregistering a channel that is not
    registered changes nothing. *)
Theorem add_remove_conn_round_trip user_id ws w :
  ws ∉ channels w user_id → conn_inv w →
  exec (Unregister user_id ws) (exec (Register user_id ws) w) = w
  ∧ exec (Unregister user_id ws) w = w.
Proof.
  intros Hws Hinv. split.
  - change (fst (remove_conn user_id ws (fst (add_conn user_id ws w))) = w).
    by rewrite add_remove_conn.
  - change (fst (remove_conn user_id ws w) = w).
    by rewrite remove_conn_absent.
Qed.

Lemma add_remove_conn_round_trip_witness :
  exec (Unregister "gent-1" 7) (exec (Register "gent-1" 7) w_channels)
  = w_channels.
Proof.
  apply (add_remove_conn_round_trip "gent-1" 7 w_channels).
  - apply (bool_decide_unpack (7 ∉ channels w_channels "gent-1")).
    vm_compute. exact I.
  - intros u s Hs. simpl in Hs.
    apply lookup_singleton_Some in Hs as [_ <-].
    apply (bool_decide_unpack (({[1; 2; 3]} : gset nat) ≠ ∅)).
    vm_compute. exact I.
Defined.

(** X17. [send_to_user] reaches the channels of the user and no others:
    it records one call, sends the payload once to every channel of the
    user that is not broken, sends nothing on any other channel, and
    creates no task. *)
Theorem send_to_user_targets user_id payload w :
  ∃ new,
    added w (fst (send_to_user user_id payload w)) new
    ∧ NoDup new
    ∧ pushes new = [(user_id, payload)]
    ∧ (∀ ws p, FrameSent ws p ∈ new ↔
               p = payload ∧ ws ∈ channels w user_id ∧ ws ∉ broken w)
    ∧ (∀ u p, TaskCreated u p ∉ new).
Proof.
  rewrite send_to_user_eq. eexists. split; [reflexivity|].
  assert (Hfr : ∀ ws p,
            FrameSent ws p ∈ frames w payload (elements (channels w user_id))
            ↔ p = payload ∧ ws ∈ channels w user_id ∧ ws ∉ broken w).
  { intros ws p. unfold frames. rewrite list_elem_of_fmap. split.
    - intros (ws' & [= -> ->] & Hin).
      apply list_elem_of_filter in Hin as [Hnb Hin].
      by apply elem_of_elements in Hin.
    - intros (-> & Hin & Hnb). exists ws. split; [done|].
      apply list_elem_of_filter. split; [done|]. by apply elem_of_elements. }
  split_and!.
  - constructor.
    + intros (ws & Heq & _)%list_elem_of_fmap. discriminate.
    + apply NoDup_fmap_2; [by intros ?? [= ->]|].
      apply NoDup_filter, NoDup_elements.
  - change (pushes (?e :: ?l)) with ((user_id, payload) :: pushes l).
    by rewrite pushes_frames.
  - intros ws p. rewrite elem_of_cons, Hfr. split; [|tauto].
    intros [Heq|?]; [discriminate|done].
  - intros u p [Heq|Hin]%elem_of_cons; [discriminate|].
    apply list_elem_of_fmap in Hin as (ws' & Heq & _). discriminate.
Qed.

(** X18. A channel that has been unregistered gets nothing: after
    [remove_conn] for a user and a channel, [send_to_user] for that user
    sends no frame on that channel. *)
Theorem remove_conn_then_push user_id ws payload w new :
  added (exec (Unregister user_id ws) w)
    (exec (Push user_id payload) (exec (Unregister user_id ws) w)) new →
  ∀ p, FrameSent ws p ∉ new.
Proof.
  simpl. rewrite send_to_user_eq, remove_conn_eq. unfold added. simpl.
  intros Heq%app_inv_head p. subst new.
  intros [Hd|Hin]%elem_of_cons; [discriminate|].
  apply list_elem_of_fmap in Hin as (ws' & [= -> ->] & Hin).
  apply list_elem_of_filter in Hin as [_ Hin].
  apply elem_of_elements in Hin. revert Hin. unfold channels.
  destruct (connections w !! user_id) as [s|] eqn:Hs; simpl;
    [|rewrite Hs; set_solver].
  case_decide; simpl.
  - rewrite lookup_delete_eq. set_solver.
  - rewrite lookup_insert_eq. set_solver.
Qed.

Lemma remove_conn_then_push_witness :
  ∃ new,
    added (exec (Unregister "gent-1" 3) w_channels)
      (exec (Push "gent-1" gigs_changed)
         (exec (Unregister "gent-1" 3) w_channels)) new
    ∧ FrameSent 1 gigs_changed ∈ new
    ∧ FrameSent 3 gigs_changed ∉ new.
Proof.
  exists [PushCalled "gent-1" gigs_changed; FrameSent 1 gigs_changed].
  assert (Hadd : added (exec (Unregister "gent-1" 3) w_channels)
                   (exec (Push "gent-1" gigs_changed)
                      (exec (Unregister "gent-1" 3) w_channels))
                   [PushCalled "gent-1" gigs_changed; FrameSent 1 gigs_changed])
    by (vm_compute; reflexivity).
  split_and!; [exact Hadd|by apply list_elem_of_further, list_elem_of_here|].
  exact (remove_conn_then_push "gent-1" 3 gigs_changed w_channels _ Hadd
           gigs_changed).
Defined.

(** ** The websocket endpoint *)

Lemma ws_close_eq ws code w :
  ws_close ws code w
  = (w, if decide (ws ∈ broken w) then Raise (SendError ws) else Return tt).
Proof. unfold ws_close. rewrite bind_get. by case_decide. Qed.

Lemma ws_accept_eq ws w :
  ws_accept ws w
  = (w, if decide (ws ∈ broken w) then Raise (SendError ws) else Return tt).
Proof. unfold ws_accept. rewrite bind_get. by case_decide. Qed.

(** Connecting: a broken websocket fails at [close] or [accept] and is not
    registered; otherwise a missing or empty identifier is rejected and
    any other identifier is registered. *)
Lemma ws_endpoint_connect_eq user_id ws w :
  ws_endpoint_connect user_id ws w
  = if decide (ws ∈ broken w) then (w, Raise (SendError ws))
    else match user_id with
         | Some u =>
             if decide (u = "") then (w, Return (Rejected 4000))
             else (fst (add_conn u ws w), Return Open)
         | None => (w, Return (Rejected 4000))
         end.
Proof.
  unfold ws_endpoint_connect.
  destruct user_id as [u|]; [destruct (decide (u = ""))|].
  - destruct (decide (ws ∈ broken w)) as [Hb|Hb].
    + erewrite bind_raise_eq; [done|]. by rewrite ws_close_eq, decide_True.
    + erewrite bind_eq; [done|]. by rewrite ws_close_eq, decide_False.
  - destruct (decide (ws ∈ broken w)) as [Hb|Hb].
    + erewrite bind_raise_eq; [done|]. by rewrite ws_accept_eq, decide_True.
    + erewrite bind_eq; [|by rewrite ws_accept_eq, decide_False].
      erewrite bind_eq; [|apply add_conn_eq]. done.
  - destruct (decide (ws ∈ broken w)) as [Hb|Hb].
    + erewrite bind_raise_eq; [done|]. by rewrite ws_close_eq, decide_True.
    + erewrite bind_eq; [done|]. by rewrite ws_close_eq, decide_False.
Qed.

Lemma ws_loop_texts user_id ws texts inbox w :
  ws_endpoint_loop user_id ws (map TextFrame texts ++ inbox) w
  = ws_endpoint_loop user_id ws inbox w.
Proof. induction texts as [|t texts IH]; [done|exact IH]. Qed.

(** The loop leaves the state alone or ends with one [remove_conn]. *)
Lemma ws_loop_state user_id ws inbox w :
  fst (ws_endpoint_loop user_id ws inbox w) = w
  ∨ fst (ws_endpoint_loop user_id ws inbox w) = exec (Unregister user_id ws) w.
Proof.
  induction inbox as [|[t| |e] inbox IH]; simpl.
  - by left.
  - exact IH.
  - right. rewrite remove_conn_eq. unfold bind. by rewrite remove_conn_eq.
  - by left.
Qed.

Lemma exec_registry_frame req w :
  (∃ u ws, req = Register u ws) ∨ (∃ u ws, req = Unregister u ws) →
  gigs (exec req w) = gigs w
  ∧ gig_assignments (exec req w) = gig_assignments w
  ∧ trace (exec req w) = trace w
  ∧ broken (exec req w) = broken w
  ∧ ∀ u', (∀ ws, req ≠ Register u' ws) → (∀ ws, req ≠ Unregister u' ws) →
          connections (exec req w) !! u' = connections w !! u'.
Proof.
  intros [(u & ws & ->)|(u & ws & ->)]; simpl.
  - split_and!; try done. intros u' Hr _. apply lookup_insert_ne.
    intros ->. by eapply Hr.
  - rewrite remove_conn_eq. simpl.
    destruct (connections w !! u) as [s|] eqn:Hs; [|done].
    case_decide; simpl; (split_and!; try done); intros u' _ Hu.
    + apply lookup_delete_ne. intros ->. by eapply Hu.
    + apply lookup_insert_ne. intros ->. by eapply Hu.
Qed.

(** X19. The endpoint keeps the registry clean over a whole run of the
    handler, from the connection through all incoming frames, however it
    ends (rejected, failed at [close] or [accept], still waiting,
    disconnected, or ended by another exception).  If before the run no
    user has an empty channel set and nothing is registered under the empty
    identifier, the same holds after it.  Only the entry of the connecting
    user can change; gigs, assignment sets and trace do not; and a
    connection that is not accepted changes nothing. *)
Theorem ws_endpoint_registry user_id ws inbox w :
  conn_inv w →
  connections w !! "" = None →
  conn_inv (fst (ws_endpoint user_id ws inbox w))
  ∧ connections (fst (ws_endpoint user_id ws inbox w)) !! "" = None
  ∧ gigs (fst (ws_endpoint user_id ws inbox w)) = gigs w
  ∧ gig_assignments (fst (ws_endpoint user_id ws inbox w)) = gig_assignments w
  ∧ trace (fst (ws_endpoint user_id ws inbox w)) = trace w
  ∧ (∀ u', user_id ≠ Some u' →
           connections (fst (ws_endpoint user_id ws inbox w)) !! u'
           = connections w !! u')
  ∧ (user_id = None ∨ user_id = Some "" ∨ ws ∈ broken w →
     fst (ws_endpoint user_id ws inbox w) = w).
Proof.
  intros Hinv Hempty. unfold ws_endpoint.
  assert (Hsame : ∀ w0, w0 = w →
            conn_inv w0 ∧ connections w0 !! "" = None ∧ gigs w0 = gigs w
            ∧ gig_assignments w0 = gig_assignments w ∧ trace w0 = trace w
            ∧ (∀ u', user_id ≠ Some u' →
                     connections w0 !! u' = connections w !! u'))
    by (by intros w0 ->).
  destruct (decide (ws ∈ broken w)) as [Hb|Hb].
  { erewrite bind_raise_eq;
      [|by rewrite ws_endpoint_connect_eq, decide_True]. simpl.
    destruct (Hsame w eq_refl) as (? & ? & ? & ? & ? & ?). done. }
  destruct user_id as [u|]; [destruct (decide (u = "")) as [->|Hu]|].
  - erewrite bind_eq;
      [|by rewrite ws_endpoint_connect_eq, decide_False, decide_True]. simpl.
    destruct (Hsame w eq_refl) as (? & ? & ? & ? & ? & ?). done.
  - erewrite bind_eq;
      [|by rewrite ws_endpoint_connect_eq, !decide_False].
    change (fst (add_conn u ws w)) with (exec (Register u ws) w).
    set (w1 := exec (Register u ws) w).
    destruct (exec_registry_frame (Register u ws) w)
      as (Hg1 & Ha1 & Ht1 & _ & Hc1); [left; by eexists _, _|].
    assert (Hinv1 : conn_inv w1) by by apply exec_conn_inv.
    assert (Hother1 : ∀ u', u' ≠ u → connections w1 !! u' = connections w !! u').
    { intros u' Hu'. apply Hc1; intros ws' [=]; done. }
    destruct (ws_loop_state u ws inbox w1) as [->| ->].
    + split_and!; try done.
      * by rewrite Hother1.
      * intros u' Hu'. apply Hother1. congruence.
      * intros [?|[[=]|?]]; done.
    + destruct (exec_registry_frame (Unregister u ws) w1)
        as (Hg2 & Ha2 & Ht2 & _ & Hc2); [right; by eexists _, _|].
      assert (Hother2 : ∀ u', u' ≠ u →
                connections (exec (Unregister u ws) w1) !! u'
                = connections w !! u').
      { intros u' Hu'. rewrite <- Hother1 by done.
        apply Hc2; intros ws' [=]; done. }
      split_and!.
      * by apply exec_conn_inv.
      * by rewrite Hother2.
      * etrans; [exact Hg2|exact Hg1].
      * etrans; [exact Ha2|exact Ha1].
      * etrans; [exact Ht2|exact Ht1].
      * intros u' Hu'. apply Hother2. congruence.
      * intros [?|[[=]|?]]; done.
  - erewrite bind_eq; [|by rewrite ws_endpoint_connect_eq, decide_False].
    simpl. destruct (Hsame w eq_refl) as (? & ? & ? & ? & ? & ?). done.
Qed.

Lemma w_channels_conn_inv : conn_inv w_channels.
Proof.
  intros u s Hs. simpl in Hs.
  apply lookup_singleton_Some in Hs as [_ <-].
  apply (bool_decide_unpack (({[1; 2; 3]} : gset nat) ≠ ∅)).
  vm_compute. exact I.
Qed.

Lemma ws_endpoint_registry_witness :
  conn_inv (fst (ws_endpoint (Some "gent-2") 9
                   [TextFrame "ping"; Disconnected] w_channels))
  ∧ fst (ws_endpoint (Some "") 9 [] w_channels) = w_channels.
Proof.
  split.
  - apply (ws_endpoint_registry (Some "gent-2") 9
             [TextFrame "ping"; Disconnected] w_channels);
      [apply w_channels_conn_inv|reflexivity].
  - apply (ws_endpoint_registry (Some "") 9 [] w_channels);
      [apply w_channels_conn_inv|reflexivity|]. right. by left.
Defined.

(** X20. An accepted channel lives from connect to disconnect.  Text frames
    are ignored: while only text arrives the handler stays in its loop and
    the state stays as it is.  The disconnect unregisters the channel, and
    for a channel that was not registered before, in a registry without
    empty sets, the state is then the one from before the connection.  An
    exception of [receive_text] other than the disconnect ends the handler
    with the channel still registered.  A websocket on which [accept]
    fails is not accepted: the handler raises and registers nothing. *)
Theorem ws_endpoint_session u ws texts rest w :
  u ≠ "" → ws ∉ channels w u → conn_inv w →
  (ws ∈ broken w →
   ws_endpoint_connect (Some u) ws w = (w, Raise (SendError ws)))
  ∧ (ws ∉ broken w →
     ∃ w1,
       ws_endpoint_connect (Some u) ws w = (w1, Return Open)
       ∧ ws ∈ channels w1 u
       ∧ ws_endpoint_loop u ws (map TextFrame texts) w1 = (w1, Return Open)
       ∧ ws_endpoint_loop u ws (map TextFrame texts ++ Disconnected :: rest) w1
         = (w, Return Closed)
       ∧ ∀ e, ws_endpoint_loop u ws
                (map TextFrame texts ++ ReceiveError e :: rest) w1
              = (w1, Raise e)).
Proof.
  intros Hu Hws Hinv. split; intros Hb.
  { by rewrite ws_endpoint_connect_eq, decide_True. }
  eexists. split_and!.
  - rewrite ws_endpoint_connect_eq, !decide_False by done.
    rewrite add_conn_eq. reflexivity.
  - unfold channels. simpl. rewrite lookup_insert_eq. set_solver.
  - rewrite <- (app_nil_r (map TextFrame texts)). by rewrite ws_loop_texts.
  - rewrite ws_loop_texts. simpl.
    pose proof (add_remove_conn u ws w Hws Hinv) as Hrt.
    rewrite add_conn_eq in Hrt. simpl in Hrt.
    by rewrite (bind_eq _ _ _ _ _ Hrt).
  - intros e. by rewrite ws_loop_texts.
Qed.

Lemma ws_endpoint_session_witness :
  ∃ w1,
    ws_endpoint_connect (Some "gent-2") 9 w_channels = (w1, Return Open)
    ∧ ws_endpoint_loop "gent-2" 9 [TextFrame "ping"; Disconnected] w1
      = (w_channels, Return Closed).
Proof.
  destruct (ws_endpoint_session "gent-2" 9 ["ping"] [] w_channels)
    as [_ Hok].
  - discriminate.
  - apply (bool_decide_unpack (9 ∉ channels w_channels "gent-2")).
    vm_compute. exact I.
  - apply w_channels_conn_inv.
  - destruct Hok as (w1 & Hc & _ & _ & Hd & _).
    + apply (bool_decide_unpack (9 ∉ broken w_channels)).
      vm_compute. exact I.
    + exists w1. split; [exact Hc|exact Hd].
Defined.

(** ** Listings and the order of the table *)

Lemma tuple_leb_antisym k1 k2 :
  tuple_leb k1 k2 = true → tuple_leb k2 k1 = true → k1 = k2.
Proof.
  unfold tuple_leb. destruct k1 as [a1 b1], k2 as [a2 b2]; simpl.
  destruct (decide (a1 = a2)) as [->|Hne].
  - rewrite decide_True by done. intros H1 H2. f_equal.
    by apply String.leb_antisym.
  - rewrite decide_False by congruence. intros H1 H2.
    destruct Hne. by apply String.leb_antisym.
Qed.

Lemma NoDup_fmap_elem_eq {A B} (f : A → B) (l : list A) x y :
  NoDup (f <$> l) → x ∈ l → y ∈ l → f x = f y → x = y.
Proof.
  induction l as [|z l IH]; simpl; intros Hnd Hx Hy Heq.
  - by apply elem_of_nil in Hx.
  - apply NoDup_cons in Hnd as [Hz Hnd].
    apply elem_of_cons in Hx as [->|Hx], Hy as [->|Hy]; try done.
    + destruct Hz. rewrite Heq. apply list_elem_of_fmap. eauto.
    + destruct Hz. rewrite <- Heq. apply list_elem_of_fmap. eauto.
    + by apply IH.
Qed.

(** X21. The listing of a worker does not depend on the order in which the
    gigs were stored: two well-formed states with the same gigs and the
    same assignment sets give the same list. *)
Theorem gigs_for_gent_order_independent gent_id w1 w2 l1 l2 :
  gigs_wf w1 →
  gigs w1 ≡ₚ gigs w2 →
  gig_assignments w1 = gig_assignments w2 →
  gigs_for_gent gent_id w1 = (w1, Return l1) →
  gigs_for_gent gent_id w2 = (w2, Return l2) →
  l1 = l2.
Proof.
  intros Hwf Hperm Hsets H1 H2. unfold gigs_for_gent in H1, H2.
  destruct (negb _); [discriminate|]. rewrite bind_get in H1, H2.
  fold (gigs_of w1 gent_id) in H1. fold (gigs_of w2 gent_id) in H2.
  injection H1 as <-. injection H2 as <-.
  assert (Hof : gigs_of w2 gent_id ≡ₚ gigs_of w1 gent_id).
  { unfold gigs_of, assigned_to. rewrite Hsets. by rewrite Hperm. }
  apply (StronglySorted_unique_strong (λ x y, gig_leb x y = true)).
  - intros x1 x2 Hx1 Hx2 H12 H21.
    rewrite (sort_by_perm gig_leb (gigs_of w1 gent_id)) in Hx1.
    rewrite (sort_by_perm gig_leb (gigs_of w2 gent_id)), Hof in Hx2.
    eapply (NoDup_fmap_elem_eq g_id); [by apply gigs_of_ids|done|done|].
    pose proof (tuple_leb_antisym _ _ H12 H21) as Hk.
    unfold sort_key in Hk. congruence.
  - apply sort_by_sorted;
      [intros x y; apply tuple_leb_total|intros x y z; apply tuple_leb_trans].
  - apply sort_by_sorted;
      [intros x y; apply tuple_leb_total|intros x y z; apply tuple_leb_trans].
  - by rewrite !sort_by_perm.
Qed.

(** The gigs of [w_two], stored the other way round. *)
Lemma gigs_for_gent_order_independent_witness :
  ∃ l1 l2,
    gigs_for_gent "gent-1" w_two = (w_two, Return l1)
    ∧ gigs_for_gent "gent-1" (set_gigs reverse w_two)
      = (set_gigs reverse w_two, Return l2)
    ∧ l1 = l2.
Proof.
  eexists _, _. split; [vm_compute; reflexivity|].
  split; [vm_compute; reflexivity|].
  eapply (gigs_for_gent_order_independent "gent-1" w_two
            (set_gigs reverse w_two)).
  - apply (reachable_gigs_wf ∅), w_two_reachable.
  - change (gigs w_two ≡ₚ reverse (gigs w_two)).
    by rewrite reverse_Permutation.
  - reflexivity.
  - vm_compute. reflexivity.
  - vm_compute. reflexivity.
Defined.

(** X22. What [update_gig] stores is what the assigned workers see, and it
    stores the patch even when the call fails at [create_task]: for a
    stored gig with assignees and a request whose address is valid or
    absent, the call raises the [create_task] error, and afterwards the
    listing of every roster worker assigned to the gig contains the
    patched record. *)
Theorem update_gig_then_listed gig_id date client_email fee gent_id w g :
  dict_get (gigs w) gig_id = Some g →
  (∀ a, client_email = Some a → _email_rx a = true) →
  gent_id ∈ GENTS →
  gent_id ∈ assigned_to w gig_id →
  ∃ w' l,
    update_gig gig_id date client_email fee w = (w', Raise NoRunningLoop)
    ∧ gigs_for_gent gent_id w' = (w', Return l)
    ∧ patch date client_email fee g ∈ l.
Proof.
  intros Hg He Hu Hin. eexists _, _. split_and!.
  - rewrite (update_gig_ok _ _ _ _ _ _ Hg He). rewrite decide_False; [done|].
    intros Hs. rewrite Hs in Hin. by apply elem_of_empty in Hin.
  - unfold gigs_for_gent. rewrite bool_decide_true by done. reflexivity.
  - simpl.
    match goal with
    | |- _ ∈ sort_by _ ?l => rewrite (sort_by_perm gig_leb l)
    end.
    apply list_elem_of_omap. exists (gig_id, patch date client_email fee g).
    split.
    + apply dict_get_elem_of. simpl.
      by rewrite dict_get_mutate, decide_True, Hg.
    + by rewrite bool_decide_true.
Qed.

Lemma update_gig_then_listed_witness :
  ∃ w' l,
    update_gig "g1" None None (Some 7000%Z) w_assigned
    = (w', Raise NoRunningLoop)
    ∧ gigs_for_gent "gent-1" w' = (w', Return l)
    ∧ mkGig "g1" "2025-03-01" "client@example.com" 7000 ∈ l.
Proof.
  apply (update_gig_then_listed "g1" None None (Some 7000%Z) "gent-1"
           w_assigned gig1).
  - apply w_assigned_gig.
  - done.
  - apply gent1_in_GENTS.
  - rewrite w_assigned_set. by apply elem_of_singleton.
Defined.

(** ** Examples for the statements without conditions *)

Lemma list_gigs_spec_witness :
  ∃ out, list_gigs w_two = (w_two, Return out) ∧ length out.*1 = 3.
Proof.
  destruct (list_gigs_spec w_two) as (out & Hrun & _ & Hfst & _).
  exists out. split; [exact Hrun|]. rewrite Hfst. vm_compute. reflexivity.
Defined.

Lemma gigs_never_deleted_witness :
  "g1" ∈ (gigs (exec (CreateGig "g1" "2030-01-01" "new@example.com" 1)
                  w_assigned)).*1.
Proof.
  apply (proj1 (gigs_never_deleted
                  (CreateGig "g1" "2030-01-01" "new@example.com" 1)
                  w_assigned)).
  apply (bool_decide_unpack ("g1" ∈ (gigs w_assigned).*1)).
  vm_compute. exact I.
Defined.

Lemma add_conn_spec_witness :
  ∃ w', add_conn "gent-1" 2 w_channels = (w', Return tt)
        ∧ channels w' "gent-1" = channels w_channels "gent-1".
Proof.
  destruct (add_conn_spec "gent-1" 2 w_channels) as (w' & Hrun & Hch & _).
  exists w'. split; [exact Hrun|]. rewrite Hch.
  assert (2 ∈ channels w_channels "gent-1") as Hin.
  { apply (bool_decide_unpack (2 ∈ channels w_channels "gent-1")).
    vm_compute. exact I. }
  set_solver.
Defined.

Lemma send_to_user_targets_witness :
  ∃ new,
    added w_channels (fst (send_to_user "gent-1" gigs_changed w_channels)) new
    ∧ (FrameSent 2 gigs_changed ∉ new)
    ∧ FrameSent 3 gigs_changed ∈ new.
Proof.
  destruct (send_to_user_targets "gent-1" gigs_changed w_channels)
    as (new & Hadd & _ & _ & Hfr & _).
  exists new. split_and!; [exact Hadd| |].
  - intros (_ & _ & Hnb)%Hfr. apply Hnb.
    apply (bool_decide_unpack (2 ∈ broken w_channels)). vm_compute. exact I.
  - apply Hfr. split_and!; [done| |].
    + apply (bool_decide_unpack (3 ∈ channels w_channels "gent-1")).
      vm_compute. exact I.
    + apply (bool_decide_unpack (3 ∉ broken w_channels)).
      vm_compute. exact I.
Defined.

